(** * AVL tree of [binary-tree/implementation.py]

    Shallow embedding of the classes [TreeNode]/[AVLNode], [BinaryTree],
    [BinarySearchTree] and [AVLTree], and the properties of the AVL tree
    stated in the specification.

    Conventions of the embedding.
    - Keys are Python integers: [Z].  Cached heights are Python integers: [Z].
    - A value of type [tree] is an [Optional[AVLNode]]: [Nil] is [None] and
      [Node data left right parent height] is a node object with its five
      attributes.  The tree owns its nodes, so the in-place updates of the
      source ([node.left = ...], [node.height = ...]) become the
      construction of the updated node.
    - [self.size] is threaded through the recursive helpers by the monad
      [M]; an [AttributeError] raised by an attribute access on [None]
      is the result [None] of the monad. *)

From Stdlib Require Import ZArith List Bool Lia Sorted Permutation Reals Lra.
Import ListNotations.
Local Open Scope Z_scope.

(** ** Nodes *)

Inductive tree : Type :=
| Nil : tree
| Node (data : Z) (left right parent : tree) (height : Z) : tree.

(** [AVLNode(data)]: [TreeNode.__init__] sets the three references to
    [None], [AVLNode.__init__] sets [height = 1]. *)
Definition AVLNode (data : Z) : tree := Node data Nil Nil Nil 1.

(** [node.data]; [AttributeError] on [None]. *)
Definition data_of (node : tree) : option Z :=
  match node with
  | Nil => None
  | Node d _ _ _ _ => Some d
  end.

(** ** The monads of the embedding *)

(** Exceptions only. *)
Definition obind {A B : Type} (m : option A) (f : A -> option B) : option B :=
  match m with
  | Some a => f a
  | None => None
  end.

(** [self.size] and exceptions. *)
Definition M (A : Type) : Type := Z -> option (A * Z).

Definition ret {A : Type} (a : A) : M A := fun size => Some (a, size).

Definition bind {A B : Type} (m : M A) (f : A -> M B) : M B :=
  fun size =>
    match m size with
    | Some (a, size') => f a size'
    | None => None
    end.

Definition lift {A : Type} (o : option A) : M A :=
  fun size =>
    match o with
    | Some a => Some (a, size)
    | None => None
    end.

(** [self.size += k] *)
Definition add_size (k : Z) : M unit := fun size => Some (tt, size + k).

Declare Scope monad_scope.
Delimit Scope monad_scope with monad.
Notation "x <-? m ;; f" := (obind m (fun x => f))
  (at level 61, m at next level, right associativity) : monad_scope.
Notation "x <- m ;; f" := (bind m (fun x => f))
  (at level 61, m at next level, right associativity) : monad_scope.
Notation "m ;;; f" := (bind m (fun _ => f))
  (at level 61, right associativity) : monad_scope.
Local Open Scope monad_scope.

(** ** class BinaryTree *)

Record AVLTree : Type := mkTree { root : tree; size : Z }.

(** [AVLTree()] *)
Definition empty : AVLTree := mkTree Nil 0.

Definition is_empty (self : AVLTree) : bool :=
  match root self with
  | Nil => true
  | _ => false
  end.

Definition get_size (self : AVLTree) : Z := size self.

(** [BinaryTree.get_height(self, node=None)].  The first statement replaces
    a [None] argument by [self.root], also in the recursive calls.  The
    recursion of the source is not structural for that reason; [fuel]
    bounds the depth of the call stack and [None] is Python's
    [RecursionError]. *)
Fixpoint get_height_from (fuel : nat) (self_root node : tree) : option Z :=
  match fuel with
  | O => None
  | S fuel =>
    let node := match node with Nil => self_root | _ => node end in
    match node with
    | Nil => Some (-1)
    | Node _ Nil Nil _ _ => Some 0
    | Node _ l r _ _ =>
      left_height <-? get_height_from fuel self_root l ;;
      right_height <-? get_height_from fuel self_root r ;;
      Some (Z.max left_height right_height + 1)
    end
  end.

(** [self.get_height()] *)
Definition get_height (fuel : nat) (self : AVLTree) : option Z :=
  get_height_from fuel (root self) Nil.

(** [_find_min_node(node)]: [while node.left: node = node.left]. *)
Fixpoint _find_min_node (node : tree) : option tree :=
  match node with
  | Nil => None
  | Node _ l _ _ _ =>
    match l with
    | Nil => Some node
    | Node _ _ _ _ _ => _find_min_node l
    end
  end.

(** [_inorder_helper(node, result)]: [result] is the list being appended to;
    the function returns its final contents. *)
Fixpoint _inorder_helper (node : tree) (result : list Z) : list Z :=
  match node with
  | Nil => result
  | Node d l r _ _ =>
    let result := _inorder_helper l result in
    let result := result ++ [d] in
    _inorder_helper r result
  end.

(** [self.inorder_traversal()] *)
Definition inorder_traversal (self : AVLTree) : list Z :=
  _inorder_helper (root self) [].

(** ** class BinarySearchTree *)

(** [_search_recursive(node, data)] returns the node found, or [None]. *)
Fixpoint _search_recursive (node : tree) (data : Z) : tree :=
  match node with
  | Nil => Nil
  | Node d l r _ _ =>
    if d =? data then node
    else if data <? d then _search_recursive l data
    else _search_recursive r data
  end.

Definition search (self : AVLTree) (data : Z) : bool :=
  match _search_recursive (root self) data with
  | Nil => false
  | Node _ _ _ _ _ => true
  end.

(** [find_min()]: [None] on the empty tree. *)
Definition find_min (self : AVLTree) : option (option Z) :=
  match root self with
  | Nil => Some None
  | Node _ _ _ _ _ =>
    node <-? _find_min_node (root self) ;;
    d <-? data_of node ;;
    Some (Some d)
  end.

(** [_find_max_in_subtree(node)] and the loop of [find_max]:
    [while node.right: node = node.right; return node.data]. *)
Fixpoint _find_max_in_subtree (node : tree) : option Z :=
  match node with
  | Nil => None
  | Node d _ r _ _ =>
    match r with
    | Nil => Some d
    | Node _ _ _ _ _ => _find_max_in_subtree r
    end
  end.

Definition find_max (self : AVLTree) : option (option Z) :=
  match root self with
  | Nil => Some None
  | Node _ _ _ _ _ =>
    d <-? _find_max_in_subtree (root self) ;;
    Some (Some d)
  end.

(** [node == other] on node objects.  The classes define no [__eq__], so
    this is object identity; the embedding has no identities and compares
    the values.  No node of an AVL tree has a parent (see [no_parent]), so
    the loops below never reach the comparison on such a tree. *)
Fixpoint tree_eqb (a b : tree) : bool :=
  match a, b with
  | Nil, Nil => true
  | Node d l r p h, Node d' l' r' p' h' =>
    (d =? d') && tree_eqb l l' && tree_eqb r r' && tree_eqb p p' && (h =? h')
  | _, _ => false
  end.

(** [while ancestor and node == ancestor.left:
       node = ancestor; ancestor = ancestor.parent]; the result is the
    final [ancestor]. *)
Fixpoint climb_while_left (node ancestor : tree) : tree :=
  match ancestor with
  | Nil => Nil
  | Node _ al _ ap _ =>
    if tree_eqb node al then climb_while_left ancestor ap else ancestor
  end.

Fixpoint climb_while_right (node ancestor : tree) : tree :=
  match ancestor with
  | Nil => Nil
  | Node _ _ ar ap _ =>
    if tree_eqb node ar then climb_while_right ancestor ap else ancestor
  end.

Definition find_predecessor (self : AVLTree) (data : Z) : option (option Z) :=
  match _search_recursive (root self) data with
  | Nil => Some None
  | Node _ l _ p _ as node =>
    match l with
    | Node _ _ _ _ _ =>
      d <-? _find_max_in_subtree l ;; Some (Some d)
    | Nil =>
      let ancestor := climb_while_left node p in
      Some (data_of ancestor)
    end
  end.

Definition find_successor (self : AVLTree) (data : Z) : option (option Z) :=
  match _search_recursive (root self) data with
  | Nil => Some None
  | Node _ _ r p _ as node =>
    match r with
    | Node _ _ _ _ _ =>
      m <-? _find_min_node r ;; d <-? data_of m ;; Some (Some d)
    | Nil =>
      let ancestor := climb_while_right node p in
      Some (data_of ancestor)
    end
  end.

(** ** class AVLTree *)

Definition _get_height (node : tree) : Z :=
  match node with
  | Nil => 0
  | Node _ _ _ _ h => h
  end.

Definition _get_balance (node : tree) : Z :=
  match node with
  | Nil => 0
  | Node _ l r _ _ => _get_height l - _get_height r
  end.

Definition _update_height (node : tree) : option tree :=
  match node with
  | Nil => None
  | Node d l r p _ =>
    Some (Node d l r p (Z.max (_get_height l) (_get_height r) + 1))
  end.

Definition _rotate_right (y : tree) : option tree :=
  match y with
  | Nil => None
  | Node yd x yr yp yh =>
    match x with
    | Nil => None
    | Node xd xl T2 xp xh =>
      y' <-? _update_height (Node yd T2 yr yp yh) ;;
      _update_height (Node xd xl y' xp xh)
    end
  end.

Definition _rotate_left (x : tree) : option tree :=
  match x with
  | Nil => None
  | Node xd xl y xp xh =>
    match y with
    | Nil => None
    | Node yd T2 yr yp yh =>
      x' <-? _update_height (Node xd xl T2 xp xh) ;;
      _update_height (Node yd x' yr yp yh)
    end
  end.

(** [c and e] where evaluating [e] may raise: [e] is evaluated only when
    [c] holds. *)
Definition and_then (c : bool) (e : option bool) : option bool :=
  if c then e else Some false.

(** Steps 2 to 4 of [_insert_avl], on the node whose child has just been
    replaced. *)
Definition _insert_avl_rebalance (node : tree) (data : Z) : option tree :=
  node <-? _update_height node ;;
  let balance := _get_balance node in
  match node with
  | Nil => None
  | Node d l r p h =>
    ll <-? and_then (balance >? 1) (ld <-? data_of l ;; Some (data <? ld)) ;;
    if ll then _rotate_right node else
    rr <-? and_then (balance <? -1) (rd <-? data_of r ;; Some (data >? rd)) ;;
    if rr then _rotate_left node else
    lr <-? and_then (balance >? 1) (ld <-? data_of l ;; Some (data >? ld)) ;;
    if lr then
      l' <-? _rotate_left l ;; _rotate_right (Node d l' r p h)
    else
    rl <-? and_then (balance <? -1) (rd <-? data_of r ;; Some (data <? rd)) ;;
    if rl then
      r' <-? _rotate_right r ;; _rotate_left (Node d l r' p h)
    else Some node
  end.

Fixpoint _insert_avl (node : tree) (data : Z) : M tree :=
  match node with
  | Nil => add_size 1 ;;; ret (AVLNode data)
  | Node d l r p h =>
    if data <? d then
      l' <- _insert_avl l data ;;
      lift (_insert_avl_rebalance (Node d l' r p h) data)
    else if data >? d then
      r' <- _insert_avl r data ;;
      lift (_insert_avl_rebalance (Node d l r' p h) data)
    else ret node
  end.

(** [AVLTree.insert(data)] *)
Definition insert (self : AVLTree) (data : Z) : option AVLTree :=
  match root self with
  | Nil => Some (mkTree (AVLNode data) 1)
  | Node _ _ _ _ _ =>
    match _insert_avl (root self) data (size self) with
    | Some (r, s) => Some (mkTree r s)
    | None => None
    end
  end.

(** Steps 2 to 4 of [_delete_avl]. *)
Definition _delete_avl_rebalance (node : tree) : option tree :=
  node <-? _update_height node ;;
  let balance := _get_balance node in
  match node with
  | Nil => None
  | Node d l r p h =>
    if (balance >? 1) && (_get_balance l >=? 0) then _rotate_right node else
    if (balance >? 1) && (_get_balance l <? 0) then
      l' <-? _rotate_left l ;; _rotate_right (Node d l' r p h)
    else
    if (balance <? -1) && (_get_balance r <=? 0) then _rotate_left node else
    if (balance <? -1) && (_get_balance r >? 0) then
      r' <-? _rotate_right r ;; _rotate_left (Node d l r' p h)
    else Some node
  end.

Fixpoint _delete_avl (node : tree) (data : Z) : M tree :=
  match node with
  | Nil => ret Nil
  | Node d l r p h =>
    if data <? d then
      l' <- _delete_avl l data ;;
      lift (_delete_avl_rebalance (Node d l' r p h))
    else if data >? d then
      r' <- _delete_avl r data ;;
      lift (_delete_avl_rebalance (Node d l r' p h))
    else
      add_size (-1) ;;;
      match l, r with
      | Nil, _ => ret r
      | _, Nil => ret l
      | _, _ =>
        successor <- lift (_find_min_node r) ;;
        sd <- lift (data_of successor) ;;
        r' <- _delete_avl r sd ;;
        lift (_delete_avl_rebalance (Node sd l r' p h))
      end
  end.

(** [AVLTree.delete(data)]: the boolean result and the tree afterwards. *)
Definition delete (self : AVLTree) (data : Z) : option (bool * AVLTree) :=
  match root self with
  | Nil => Some (false, self)
  | Node _ _ _ _ _ =>
    let initial_size := size self in
    match _delete_avl (root self) data (size self) with
    | Some (r, s) => Some (s <? initial_size, mkTree r s)
    | None => None
    end
  end.

Fixpoint _is_balanced_helper (node : tree) : bool :=
  match node with
  | Nil => true
  | Node _ l r _ _ =>
    (Z.abs (_get_balance node) <=? 1)
    && _is_balanced_helper l && _is_balanced_helper r
  end.

Definition is_balanced (self : AVLTree) : bool :=
  _is_balanced_helper (root self).

(** ** Sequences of calls *)

Inductive op : Type :=
| Insert (data : Z)
| Delete (data : Z).

Definition step (self : AVLTree) (o : op) : option AVLTree :=
  match o with
  | Insert data => insert self data
  | Delete data => r <-? delete self data ;; Some (snd r)
  end.

(** The calls of [ops], first to last, on [self]. *)
Fixpoint run (ops : list op) (self : AVLTree) : option AVLTree :=
  match ops with
  | [] => Some self
  | o :: ops => self' <-? step self o ;; run ops self'
  end.

(** The states an [AVLTree] object can be in. *)
Definition reachable (t : AVLTree) : Prop :=
  exists ops, run ops empty = Some t.

(** [insert] of the keys of [keys], first to last, into the empty tree. *)
Definition build (keys : list Z) : option AVLTree :=
  run (map Insert keys) empty.

(** ** Specification vocabulary *)

(** The keys of a subtree, in the order of the in-order traversal. *)
Definition keys (t : tree) : list Z := _inorder_helper t [].

(** The height of a subtree recomputed from its structure, counted in
    nodes as the cached [height] attribute is: [0] for [None], [1] for a
    node without children. *)
Fixpoint levels (t : tree) : Z :=
  match t with
  | Nil => 0
  | Node _ l r _ _ => Z.max (levels l) (levels r) + 1
  end.

(** The height [get_height] is meant to return, counted in edges: [-1] for
    the empty tree, [0] for a single node. *)
Definition edge_height (t : tree) : Z := levels t - 1.

(** Number of nodes. *)
Fixpoint count (t : tree) : Z :=
  match t with
  | Nil => 0
  | Node _ l r _ _ => count l + count r + 1
  end.

(** BST ordering at every node. *)
Fixpoint bst (t : tree) : Prop :=
  match t with
  | Nil => True
  | Node d l r _ _ =>
    Forall (fun k => k < d) (keys l) /\ Forall (fun k => d < k) (keys r)
    /\ bst l /\ bst r
  end.

(** AVL balance at every node, on the heights recomputed from the
    structure. *)
Fixpoint balanced (t : tree) : Prop :=
  match t with
  | Nil => True
  | Node _ l r _ _ =>
    Z.abs (levels l - levels r) <= 1 /\ balanced l /\ balanced r
  end.

(** AVL balance at every node, on the cached heights of the children. *)
Fixpoint cached_balanced (t : tree) : Prop :=
  match t with
  | Nil => True
  | Node _ l r _ _ =>
    Z.abs (_get_height l - _get_height r) <= 1
    /\ cached_balanced l /\ cached_balanced r
  end.

(** Every cached height is [1 + max] of the children's cached heights. *)
Fixpoint heights_ok (t : tree) : Prop :=
  match t with
  | Nil => True
  | Node _ l r _ h =>
    h = Z.max (_get_height l) (_get_height r) + 1
    /\ heights_ok l /\ heights_ok r
  end.

(** No node has its [parent] attribute set. *)
Fixpoint no_parent (t : tree) : Prop :=
  match t with
  | Nil => True
  | Node _ l r p _ => p = Nil /\ no_parent l /\ no_parent r
  end.

(** The invariant on shapes used in the proofs: cached heights, balance on
    the cached heights, and no parent reference. *)
Fixpoint shape (t : tree) : Prop :=
  match t with
  | Nil => True
  | Node _ l r p h =>
    h = Z.max (_get_height l) (_get_height r) + 1
    /\ -1 <= _get_height l - _get_height r <= 1
    /\ p = Nil /\ shape l /\ shape r
  end.

(** The subtree is one level higher on the side where [x] belongs. *)
Definition tilted (t : tree) (x : Z) : Prop :=
  match t with
  | Nil => False
  | Node d l r _ _ =>
    (x < d /\ _get_height l = _get_height r + 1)
    \/ (d < x /\ _get_height r = _get_height l + 1)
  end.

Definition sorted (l : list Z) : Prop := StronglySorted Z.lt l.

(** The invariant of an [AVLTree] object. *)
Definition avl (t : AVLTree) : Prop :=
  shape (root t) /\ sorted (keys (root t)).

(** ** Vocabulary for the height bound *)

(** Some node of the subtree has exactly one child. *)
Fixpoint has_half (t : tree) : bool :=
  match t with
  | Nil => false
  | Node _ l r _ _ =>
    match l, r with
    | Nil, Nil => false
    | Node _ _ _ _ _, Node _ _ _ _ _ => has_half l || has_half r
    | _, _ => true
    end
  end.

(** The least number of nodes of an AVL tree with [h] levels, paired with
    that for [h + 1] levels. *)
Fixpoint fibpair (h : nat) : Z * Z :=
  match h with
  | O => (0, 1)
  | S h' => let (a, b) := fibpair h' in (b, a + b + 1)
  end.

Definition Nmin (h : nat) : Z := fst (fibpair h).

(** The AVL tree with [h] levels and the least number of nodes, on the keys
    [lo], [lo + 1], ... *)
Fixpoint fibtree (h : nat) (lo : Z) : tree :=
  match h with
  | O => Nil
  | S h' =>
    match h' with
    | O => AVLNode lo
    | S h'' =>
      Node (lo + Nmin h') (fibtree h' lo) (fibtree h'' (lo + Nmin h' + 1)) Nil
           (Z.of_nat h)
    end
  end.

Definition fibtree_ok (h : nat) : Prop :=
  forall lo,
    shape (fibtree h lo)
    /\ _get_height (fibtree h lo) = Z.of_nat h
    /\ count (fibtree h lo) = Nmin h
    /\ sorted (keys (fibtree h lo))
    /\ Forall (fun k => lo <= k < lo + Nmin h) (keys (fibtree h lo)).

(** The logarithm in base 2. *)
Definition log2R (x : R) : R := (ln x / ln 2)%R.

(** A tree with stale cached heights: a chain of three nodes whose cached
    heights are those of a tree with two levels. *)
Definition stale_chain : AVLTree :=
  mkTree (Node 3 (Node 2 (Node 1 Nil Nil Nil 1) Nil Nil 1) Nil Nil 2) 3.

(** ** Further methods of [BinaryTree] and [BinarySearchTree]

    The methods below read and write the attributes [data], [left] and
    [right] only, and are inherited by [AVLTree]. *)

(** [_preorder_helper(node, result)] *)
Fixpoint _preorder_helper (node : tree) (result : list Z) : list Z :=
  match node with
  | Nil => result
  | Node d l r _ _ =>
    let result := result ++ [d] in
    let result := _preorder_helper l result in
    _preorder_helper r result
  end.

(** [self.preorder_traversal()] *)
Definition preorder_traversal (self : AVLTree) : list Z :=
  _preorder_helper (root self) [].

(** [_postorder_helper(node, result)] *)
Fixpoint _postorder_helper (node : tree) (result : list Z) : list Z :=
  match node with
  | Nil => result
  | Node d l r _ _ =>
    let result := _postorder_helper l result in
    let result := _postorder_helper r result in
    result ++ [d]
  end.

(** [self.postorder_traversal()] *)
Definition postorder_traversal (self : AVLTree) : list Z :=
  _postorder_helper (root self) [].

(** [if child: queue.append(child)]; a node object is always true. *)
Definition enqueue (queue : list tree) (child : tree) : list tree :=
  match child with
  | Nil => queue
  | Node _ _ _ _ _ => queue ++ [child]
  end.

(** The loop of [level_order_traversal]: [queue] is the deque, its head the
    left end.  [fuel] bounds the number of iterations; the result [None]
    is an exhausted [fuel] (or [current.data] on [None], which no queue
    built by the method contains). *)
Fixpoint level_order_loop (fuel : nat) (queue : list tree) (result : list Z)
  : option (list Z) :=
  match queue with
  | [] => Some result
  | current :: queue =>
    match fuel with
    | O => None
    | S fuel =>
      match current with
      | Nil => None
      | Node d l r _ _ =>
        level_order_loop fuel (enqueue (enqueue queue l) r) (result ++ [d])
      end
    end
  end.

(** [self.level_order_traversal()] *)
Definition level_order_traversal (fuel : nat) (self : AVLTree)
  : option (list Z) :=
  match root self with
  | Nil => Some []
  | Node _ _ _ _ _ => level_order_loop fuel [root self] []
  end.

(** The loop of [_find_node]; the result [Some Nil] is the [None] returned
    after the loop, the result [None] an exhausted [fuel]. *)
Fixpoint _find_node_loop (fuel : nat) (queue : list tree) (data : Z)
  : option tree :=
  match queue with
  | [] => Some Nil
  | current :: queue =>
    match fuel with
    | O => None
    | S fuel =>
      match current with
      | Nil => None
      | Node d l r _ _ =>
        if d =? data then Some current
        else _find_node_loop fuel (enqueue (enqueue queue l) r) data
      end
    end
  end.

(** [self._find_node(data)] *)
Definition _find_node (fuel : nat) (self : AVLTree) (data : Z) : option tree :=
  match root self with
  | Nil => Some Nil
  | Node _ _ _ _ _ => _find_node_loop fuel [root self] data
  end.

(** [BinaryTree.search(self, data)]: [self._find_node(data) is not None]. *)
Definition binary_tree_search (fuel : nat) (self : AVLTree) (data : Z)
  : option bool :=
  node <-? _find_node fuel self data ;;
  Some (match node with Nil => false | Node _ _ _ _ _ => true end).






(** [BinarySearchTree._delete_recursive(node, data)] *)
Fixpoint _delete_recursive (node : tree) (data : Z) : M tree :=
  match node with
  | Nil => ret Nil
  | Node d l r p h =>
    if data <? d then
      l' <- _delete_recursive l data ;; ret (Node d l' r p h)
    else if data >? d then
      r' <- _delete_recursive r data ;; ret (Node d l r' p h)
    else
      add_size (-1) ;;;
      match l, r with
      | Nil, Nil => ret Nil
      | Nil, _ => ret r
      | _, Nil => ret l
      | _, _ =>
        successor <- lift (_find_min_node r) ;;
        sd <- lift (data_of successor) ;;
        r' <- _delete_recursive r sd ;;
        ret (Node sd l r' p h)
      end
  end.

(** [BinarySearchTree.delete(self, data)], the method [AVLTree.delete]
    overrides: the boolean result and the tree afterwards. *)
Definition bst_delete (self : AVLTree) (data : Z) : option (bool * AVLTree) :=
  match root self with
  | Nil => Some (false, self)
  | Node _ _ _ _ _ =>
    match _delete_recursive (root self) data (size self) with
    | Some (r, s) => Some (true, mkTree r s)
    | None => None
    end
  end.

(** ** Vocabulary for the further properties *)

(** The keys of the nodes of a queue, in the order of the queue. *)
Definition root_keys (queue : list tree) : list Z :=
  flat_map (fun t => match t with Nil => [] | Node d _ _ _ _ => [d] end) queue.

(** The children of the nodes of a queue, left to right. *)
Definition children (queue : list tree) : list tree :=
  flat_map (fun t => match t with
                     | Nil => []
                     | Node _ l r _ _ => enqueue (enqueue [] l) r
                     end) queue.

(** The keys of a forest level by level: the keys of its roots, then those
    of their children, and so on for [depth] levels. *)
Fixpoint by_levels (depth : nat) (forest : list tree) : list Z :=
  match depth with
  | O => []
  | S depth => root_keys forest ++ by_levels depth (children forest)
  end.

(** [s] is a node of [t]. *)
Fixpoint node_of (s t : tree) : Prop :=
  match t with
  | Nil => False
  | Node _ l r _ _ => s = t \/ node_of s l \/ node_of s r
  end.

(** The first node of a queue that carries the key [k]. *)
Definition first_with_key (k : Z) (queue : list tree) : option tree :=
  find (fun t => match t with Nil => false | Node d _ _ _ _ => d =? k end) queue.



(** A queue that holds nodes only. *)
Definition nodes_only (queue : list tree) : Prop :=
  Forall (fun t => t <> Nil) queue.

(** Number of nodes of a forest. *)
Fixpoint forest_count (queue : list tree) : nat :=
  match queue with
  | [] => O
  | t :: queue => (Z.to_nat (count t) + forest_count queue)%nat
  end.

(** Number of levels of a forest. *)
Fixpoint forest_depth (queue : list tree) : nat :=
  match queue with
  | [] => O
  | t :: queue => Nat.max (Z.to_nat (levels t)) (forest_depth queue)
  end.

(** The top of a tree: the nodes above depth [c], and of the nodes at depth
    [c] those whose key is in [K]; cached heights recomputed, no parent
    reference. *)
Fixpoint top_part (c : nat) (K : list Z) (t : tree) : tree :=
  match t with
  | Nil => Nil
  | Node d l r _ _ =>
    match c with
    | O => if in_dec Z.eq_dec d K then AVLNode d else Nil
    | S c =>
      let l' := top_part c K l in
      let r' := top_part c K r in
      Node d l' r' Nil (Z.max (_get_height l') (_get_height r') + 1)
    end
  end.

(** [x] is the key of a node at depth [c]. *)
Fixpoint at_depth (c : nat) (x : Z) (t : tree) : Prop :=
  match t with
  | Nil => False
  | Node d l r _ _ =>
    match c with
    | O => x = d
    | S c => at_depth c x l \/ at_depth c x r
    end
  end.

(** The keys at depth [c] of a forest, left to right. *)
Fixpoint nth_level (c : nat) (forest : list tree) : list Z :=
  match c with
  | O => root_keys forest
  | S c => nth_level c (children forest)
  end.

(** The node has a left and a right child. *)
Definition has_two_children (node : tree) : bool :=
  match node with
  | Node _ (Node _ _ _ _ _) (Node _ _ _ _ _) _ _ => true
  | _ => false
  end.

(** ** Basic facts *)

#[local] Arguments Z.add : simpl never.
#[local] Arguments Z.sub : simpl never.
#[local] Arguments Z.mul : simpl never.
#[local] Arguments Z.opp : simpl never.
#[local] Arguments Z.max : simpl never.
#[local] Arguments Z.abs : simpl never.
#[local] Arguments Z.ltb : simpl never.
#[local] Arguments Z.gtb : simpl never.
#[local] Arguments Z.leb : simpl never.
#[local] Arguments Z.geb : simpl never.
#[local] Arguments Z.eqb : simpl never.

Lemma inorder_helper_app (t : tree) (acc : list Z) :
  _inorder_helper t acc = acc ++ keys t.
Proof.
  unfold keys. revert acc.
  induction t as [|d l IHl r IHr p _ h]; intros acc; simpl.
  - now rewrite app_nil_r.
  - rewrite (IHr (_inorder_helper l acc ++ [d])), (IHr (_inorder_helper l [] ++ [d])).
    rewrite (IHl acc), (IHl []). simpl.
    now rewrite <- !app_assoc.
Qed.

Lemma keys_node d l r p h :
  keys (Node d l r p h) = keys l ++ d :: keys r.
Proof.
  unfold keys at 1. simpl. rewrite !inorder_helper_app. simpl.
  now rewrite <- app_assoc.
Qed.

Lemma keys_nil : keys Nil = [].
Proof. reflexivity. Qed.

Lemma sorted_app_cons (a b : list Z) (d : Z) :
  sorted (a ++ d :: b) <->
  sorted a /\ sorted b /\ Forall (fun k => k < d) a /\ Forall (fun k => d < k) b.
Proof.
  unfold sorted. induction a as [|x a IH]; simpl.
  - split.
    + intros H. inversion H; subst. repeat split; auto. constructor.
    + intros (_ & Hb & _ & Hd). now constructor.
  - split.
    + intros H. inversion H as [|? ? Hs Hf]; subst.
      apply IH in Hs. destruct Hs as (Ha & Hb & Hlt & Hgt).
      rewrite Forall_app in Hf. destruct Hf as [Hfa Hfd].
      inversion Hfd; subst.
      repeat split; auto; constructor; auto.
    + intros (Ha & Hb & Hlt & Hgt).
      inversion Ha as [|? ? Hs Hf]; subst. inversion Hlt; subst.
      constructor.
      * apply IH. repeat split; auto.
      * rewrite Forall_app. split; auto. constructor; auto.
        eapply Forall_impl; [|exact Hgt]. simpl. intros. lia.
Qed.

Lemma sorted_NoDup (l : list Z) : sorted l -> NoDup l.
Proof.
  induction 1 as [|x l Hs IH Hf]; constructor; auto.
  intros Hin. rewrite Forall_forall in Hf. specialize (Hf _ Hin). lia.
Qed.

Lemma bst_sorted (t : tree) : bst t <-> sorted (keys t).
Proof.
  induction t as [|d l IHl r IHr p _ h]; simpl.
  - split; auto. intros _. constructor.
  - rewrite keys_node, sorted_app_cons, IHl, IHr. tauto.
Qed.

Lemma shape_height_nonneg (t : tree) : shape t -> 0 <= _get_height t.
Proof.
  induction t as [|d l IHl r IHr p _ h]; simpl; [lia|].
  intros (Hh & Hb & _ & Hl & Hr). specialize (IHl Hl). specialize (IHr Hr). lia.
Qed.

Lemma shape_height_pos d l r p h : shape (Node d l r p h) -> 1 <= h.
Proof.
  simpl. intros (Hh & Hb & _ & Hl & Hr).
  apply shape_height_nonneg in Hl, Hr. lia.
Qed.

Lemma heights_ok_levels (t : tree) : heights_ok t -> _get_height t = levels t.
Proof.
  induction t as [|d l IHl r IHr p _ h]; simpl; auto.
  intros (Hh & Hl & Hr). rewrite <- IHl, <- IHr by assumption. lia.
Qed.

Lemma shape_heights_ok (t : tree) : shape t -> heights_ok t.
Proof.
  induction t as [|d l IHl r IHr p _ h]; simpl; auto.
  intros (Hh & Hb & _ & Hl & Hr). repeat split; auto.
Qed.

Lemma shape_levels (t : tree) : shape t -> _get_height t = levels t.
Proof. intros H. now apply heights_ok_levels, shape_heights_ok. Qed.

Lemma shape_balanced (t : tree) : shape t -> balanced t.
Proof.
  induction t as [|d l IHl r IHr p _ h]; simpl; auto.
  intros (Hh & Hb & _ & Hl & Hr). repeat split; auto.
  rewrite <- !shape_levels by assumption. lia.
Qed.

Lemma shape_no_parent (t : tree) : shape t -> no_parent t.
Proof.
  induction t as [|d l IHl r IHr p _ h]; simpl; auto.
  intros (Hh & Hb & Hp & Hl & Hr). repeat split; auto.
Qed.
(** ** Rebalancing *)

(** Case analysis on the first integer comparison of the goal. *)
Ltac zcase :=
  match goal with
  | |- context [?a >? ?b] => rewrite (Z.gtb_ltb a b)
  | |- context [?a >=? ?b] => rewrite (Z.geb_leb a b)
  | |- context [?a <? ?b] => destruct (Z.ltb_spec a b)
  | |- context [?a <=? ?b] => destruct (Z.leb_spec a b)
  | |- context [?a =? ?b] => destruct (Z.eqb_spec a b)
  end.

Ltac zcases := repeat (zcase; try lia; simpl).

(** Equal in-order sequences, up to the associativity of [++]. *)
Ltac keys_eq :=
  rewrite ?keys_node; repeat (rewrite <- app_assoc; simpl); reflexivity.

Lemma rebalance_insert_left d l r p h x :
  shape l -> shape r ->
  -1 <= _get_height l - _get_height r <= 2 ->
  (_get_height l - _get_height r = 2 -> tilted l x) ->
  exists t',
    _insert_avl_rebalance (Node d l r p h) x = Some t'
    /\ keys t' = keys (Node d l r p h)
    /\ (p = Nil -> shape t')
    /\ t' <> Nil
    /\ ((_get_height l - _get_height r <= 1
         /\ t' = Node d l r p (Z.max (_get_height l) (_get_height r) + 1))
        \/ (_get_height l - _get_height r = 2
            /\ _get_height t' = _get_height l)).
Proof.
  intros Hl Hr Hb Ht.
  unfold _insert_avl_rebalance. simpl.
  destruct (Z.eq_dec (_get_height l - _get_height r) 2) as [E|E].
  - specialize (Ht E). destruct l as [|ld ll lr lp lh]; [contradiction|].
    simpl in *. destruct Hl as (Hlh & Hlb & Hlp & Hll & Hlr).
    pose proof (shape_height_nonneg _ Hll). pose proof (shape_height_nonneg _ Hlr).
    pose proof (shape_height_nonneg _ Hr).
    destruct Ht as [[Hx Hh]|[Hx Hh]].
    + zcases. eexists. split; [reflexivity|].
      rewrite !keys_node. repeat split; simpl; try assumption; try lia; try discriminate.
      keys_eq.
    + zcases.
      destruct lr as [|bd bl br bp bh]; [simpl in *; lia|].
      simpl in *. destruct Hlr as (Hbh & Hbb & Hbp & Hbl & Hbr).
      pose proof (shape_height_nonneg _ Hbl). pose proof (shape_height_nonneg _ Hbr).
      eexists. split; [reflexivity|].
      rewrite !keys_node. repeat split; simpl; try assumption; try lia; try discriminate.
      keys_eq.
  - zcases. eexists. split; [reflexivity|].
    repeat split; simpl; try assumption; try lia; try discriminate.
    left. split; [lia|reflexivity].
Qed.

Lemma rebalance_insert_right d l r p h x :
  shape l -> shape r ->
  -1 <= _get_height r - _get_height l <= 2 ->
  (_get_height r - _get_height l = 2 -> tilted r x) ->
  exists t',
    _insert_avl_rebalance (Node d l r p h) x = Some t'
    /\ keys t' = keys (Node d l r p h)
    /\ (p = Nil -> shape t')
    /\ t' <> Nil
    /\ ((_get_height r - _get_height l <= 1
         /\ t' = Node d l r p (Z.max (_get_height l) (_get_height r) + 1))
        \/ (_get_height r - _get_height l = 2
            /\ _get_height t' = _get_height r)).
Proof.
  intros Hl Hr Hb Ht.
  unfold _insert_avl_rebalance. simpl.
  destruct (Z.eq_dec (_get_height r - _get_height l) 2) as [E|E].
  - specialize (Ht E). destruct r as [|rd rl rr rp rh]; [contradiction|].
    simpl in *. destruct Hr as (Hrh & Hrb & Hrp & Hrl & Hrr).
    pose proof (shape_height_nonneg _ Hrl). pose proof (shape_height_nonneg _ Hrr).
    pose proof (shape_height_nonneg _ Hl).
    destruct Ht as [[Hx Hh]|[Hx Hh]].
    + zcases.
      destruct rl as [|bd bl br bp bh]; [simpl in *; lia|].
      simpl in *. destruct Hrl as (Hbh & Hbb & Hbp & Hbl & Hbr).
      pose proof (shape_height_nonneg _ Hbl). pose proof (shape_height_nonneg _ Hbr).
      eexists. split; [reflexivity|].
      rewrite !keys_node. repeat split; simpl; try assumption; try lia; try discriminate.
      keys_eq.
    + zcases. eexists. split; [reflexivity|].
      rewrite !keys_node. repeat split; simpl; try assumption; try lia; try discriminate.
      keys_eq.
  - zcases. eexists. split; [reflexivity|].
    repeat split; simpl; try assumption; try lia; try discriminate.
    left. split; [lia|reflexivity].
Qed.

Lemma rebalance_delete d l r p h :
  shape l -> shape r ->
  -2 <= _get_height l - _get_height r <= 2 ->
  exists t',
    _delete_avl_rebalance (Node d l r p h) = Some t'
    /\ keys t' = keys (Node d l r p h)
    /\ (p = Nil -> shape t')
    /\ (_get_height t' = Z.max (_get_height l) (_get_height r) + 1
        \/ _get_height t' = Z.max (_get_height l) (_get_height r))
    /\ (-1 <= _get_height l - _get_height r <= 1 ->
        t' = Node d l r p (Z.max (_get_height l) (_get_height r) + 1)).
Proof.
  intros Hl Hr Hb.
  unfold _delete_avl_rebalance. simpl.
  pose proof (shape_height_nonneg _ Hl). pose proof (shape_height_nonneg _ Hr).
  destruct (Z.ltb_spec 1 (_get_height l - _get_height r)) as [E|E];
    [|destruct (Z.ltb_spec (_get_height l - _get_height r) (-1)) as [E'|E']].
  - destruct l as [|ld ll lr lp lh]; [simpl in *; lia|].
    simpl in *. destruct Hl as (Hlh & Hlb & Hlp & Hll & Hlr).
    pose proof (shape_height_nonneg _ Hll). pose proof (shape_height_nonneg _ Hlr).
    zcases.
    + destruct lr as [|bd bl br bp bh]; [simpl in *; lia|].
      simpl in *. destruct Hlr as (Hbh & Hbb & Hbp & Hbl & Hbr).
      pose proof (shape_height_nonneg _ Hbl). pose proof (shape_height_nonneg _ Hbr).
      eexists. split; [reflexivity|].
      rewrite !keys_node. repeat split; simpl; try assumption; try lia.
      keys_eq.
    + eexists. split; [reflexivity|].
      rewrite !keys_node. repeat split; simpl; try assumption; try lia.
      keys_eq.
  - destruct r as [|rd rl rr rp rh]; [simpl in *; lia|].
    simpl in *. destruct Hr as (Hrh & Hrb & Hrp & Hrl & Hrr).
    pose proof (shape_height_nonneg _ Hrl). pose proof (shape_height_nonneg _ Hrr).
    zcases.
    + destruct rl as [|bd bl br bp bh]; [simpl in *; lia|].
      simpl in *. destruct Hrl as (Hbh & Hbb & Hbp & Hbl & Hbr).
      pose proof (shape_height_nonneg _ Hbl). pose proof (shape_height_nonneg _ Hbr).
      eexists. split; [reflexivity|].
      rewrite !keys_node. repeat split; simpl; try assumption; try lia.
      keys_eq.
    + eexists. split; [reflexivity|].
      rewrite !keys_node. repeat split; simpl; try assumption; try lia.
      keys_eq.
  - zcases. eexists. split; [reflexivity|].
    repeat split; simpl; try assumption; try lia.
Qed.

(** ** [_insert_avl] *)

Lemma Forall_lt_in (P : Z -> Prop) (l : list Z) (y : Z) :
  Forall P l -> In y l -> P y.
Proof. intros H Hin. rewrite Forall_forall in H. auto. Qed.

Lemma insert_avl_spec (t : tree) (x s : Z) :
  shape t ->
  exists t' s',
    _insert_avl t x s = Some (t', s')
    /\ shape t' /\ t' <> Nil
    /\ (_get_height t' = _get_height t \/ _get_height t' = _get_height t + 1)
    /\ (_get_height t' = _get_height t + 1 -> t <> Nil -> tilted t' x)
    /\ (forall y, In y (keys t') <-> y = x \/ In y (keys t))
    /\ (sorted (keys t) -> sorted (keys t'))
    /\ (~ In x (keys t) -> s' = s + 1)
    /\ (sorted (keys t) -> In x (keys t) -> t' = t /\ s' = s).
Proof.
  revert s. induction t as [|d l IHl r IHr p _ h]; intros s Hs.
  - exists (AVLNode x), (s + 1). simpl.
    split; [reflexivity|]. split; [repeat split; simpl; lia|].
    split; [discriminate|]. split; [right; reflexivity|].
    split; [intros _ Hn; now elim Hn|].
    split; [intros y; simpl; intuition auto|].
    split; [intros _; repeat constructor|].
    split; [reflexivity|contradiction].
  - pose proof Hs as (Hh & Hb & Hp & Hl & Hr). subst p.
    simpl. unfold bind, lift, ret. rewrite Z.gtb_ltb.
    destruct (Z.ltb_spec x d) as [Hlt|Hge]; [|destruct (Z.ltb_spec d x) as [Hgt|Hle]].
    + destruct (IHl s Hl) as (l' & s' & El & Hl' & Hnil & Hinc & Htilt & Hin & Hsort & Hnew & Hold).
      rewrite El.
      pose proof (shape_height_nonneg _ Hl). pose proof (shape_height_nonneg _ Hr).
      destruct (rebalance_insert_left d l' r Nil h x Hl' Hr) as (t' & Et & Hk & Hst & Hnn & Hcase).
      { lia. }
      { intros E. apply Htilt; [lia|]. intros ->. simpl in *. lia. }
      rewrite Et. exists t', s'. split; [reflexivity|]. split; [auto|]. split; [auto|].
      assert (Hin' : forall y, In y (keys t') <-> y = x \/ In y (keys (Node d l r Nil h))).
      { intros y. rewrite Hk, !keys_node, !in_app_iff. simpl. rewrite Hin. tauto. }
      split; [|split; [|split; [exact Hin'|split; [|split]]]].
      * destruct Hcase as [[Hc ->]|[Hc ->]]; simpl; lia.
      * intros Hgrow _. destruct Hcase as [[Hc ->]|[Hc Hc']]; simpl in *; [|lia].
        left. split; [assumption|lia].
      * rewrite Hk, !keys_node, !sorted_app_cons.
        intros (Hsl & Hsr & Hfl & Hfr). repeat split; auto.
        apply Forall_forall. intros y Hy. apply Hin in Hy. destruct Hy as [->|Hy]; auto.
        exact (Forall_lt_in _ _ _ Hfl Hy).
      * rewrite keys_node, in_app_iff. intros Hnot. apply Hnew. tauto.
      * rewrite keys_node, in_app_iff, sorted_app_cons. simpl.
        intros (Hsl & Hsr & Hfl & Hfr) Hx.
        assert (Hxl : In x (keys l)).
        { destruct Hx as [Hx|[Hx|Hx]]; auto; [lia|].
          pose proof (Forall_lt_in _ _ _ Hfr Hx). simpl in *. lia. }
        destruct (Hold Hsl Hxl) as [-> ->]. split; [|reflexivity].
        destruct Hcase as [[Hc ->]|[Hc Hc']]; [|lia]. now rewrite <- Hh.
    + destruct (IHr s Hr) as (r' & s' & Er & Hr' & Hnil & Hinc & Htilt & Hin & Hsort & Hnew & Hold).
      rewrite Er.
      pose proof (shape_height_nonneg _ Hl). pose proof (shape_height_nonneg _ Hr).
      destruct (rebalance_insert_right d l r' Nil h x Hl Hr') as (t' & Et & Hk & Hst & Hnn & Hcase).
      { lia. }
      { intros E. apply Htilt; [lia|]. intros ->. simpl in *. lia. }
      rewrite Et. exists t', s'. split; [reflexivity|]. split; [auto|]. split; [auto|].
      assert (Hin' : forall y, In y (keys t') <-> y = x \/ In y (keys (Node d l r Nil h))).
      { intros y. rewrite Hk, !keys_node, !in_app_iff. simpl. rewrite Hin. tauto. }
      split; [|split; [|split; [exact Hin'|split; [|split]]]].
      * destruct Hcase as [[Hc ->]|[Hc ->]]; simpl; lia.
      * intros Hgrow _. destruct Hcase as [[Hc ->]|[Hc Hc']]; simpl in *; [|lia].
        right. split; [assumption|lia].
      * rewrite Hk, !keys_node, !sorted_app_cons.
        intros (Hsl & Hsr & Hfl & Hfr). repeat split; auto.
        apply Forall_forall. intros y Hy. apply Hin in Hy. destruct Hy as [->|Hy]; auto.
        exact (Forall_lt_in _ _ _ Hfr Hy).
      * rewrite keys_node, in_app_iff. simpl. intros Hnot. apply Hnew. tauto.
      * rewrite keys_node, in_app_iff, sorted_app_cons. simpl.
        intros (Hsl & Hsr & Hfl & Hfr) Hx.
        assert (Hxr : In x (keys r)).
        { destruct Hx as [Hx|[Hx|Hx]]; auto; [|lia].
          pose proof (Forall_lt_in _ _ _ Hfl Hx). simpl in *. lia. }
        destruct (Hold Hsr Hxr) as [-> ->]. split; [|reflexivity].
        destruct Hcase as [[Hc ->]|[Hc Hc']]; [|lia]. now rewrite <- Hh.
    + assert (x = d) by lia. subst x.
      exists (Node d l r Nil h), s. split; [reflexivity|]. split; [exact Hs|].
      split; [discriminate|]. split; [auto|]. split; [simpl; lia|].
      split; [|split; [auto|split; [|auto]]].
      * intros y. rewrite keys_node, in_app_iff. simpl. intuition auto.
      * rewrite keys_node, in_app_iff. simpl. tauto.
Qed.

(** ** [_find_min_node] and [_delete_avl] *)

Lemma find_min_node_spec (t : tree) :
  t <> Nil ->
  exists sd mr mp mh rest,
    _find_min_node t = Some (Node sd Nil mr mp mh) /\ keys t = sd :: rest.
Proof.
  induction t as [|d l IHl r _ p _ h]; intros Hn; [now elim Hn|].
  destruct l as [|ld ll lr lp lh].
  - exists d, r, p, h, (keys r). split; [reflexivity|]. now rewrite keys_node.
  - destruct IHl as (sd & mr & mp & mh & rest & E & K); [discriminate|].
    exists sd, mr, mp, mh, (rest ++ d :: keys r). split.
    + simpl in *. exact E.
    + rewrite keys_node, K. reflexivity.
Qed.

Lemma sorted_cons_inv (x : Z) (l : list Z) :
  sorted (x :: l) -> sorted l /\ Forall (fun k => x < k) l.
Proof. intros H. inversion H; subst. auto. Qed.

Lemma delete_min_size (t : tree) (sd s : Z) (rest : list Z) r :
  keys t = sd :: rest -> sorted (keys t) ->
  _delete_avl t sd s = Some r -> snd r = s - 1.
Proof.
  revert s r rest. induction t as [|d l IHl r0 _ p _ h]; intros s r rest K Hs E.
  - discriminate.
  - rewrite keys_node in K, Hs. apply sorted_app_cons in Hs.
    destruct Hs as (Hsl & Hsr & Hfl & Hfr).
    simpl in E. unfold bind, lift, ret, add_size in E. rewrite Z.gtb_ltb in E.
    destruct l as [|ld ll lr lp lh].
    + simpl in K. injection K as -> _.
      rewrite Z.ltb_irrefl in E. injection E as <-. reflexivity.
    + destruct (keys (Node ld ll lr lp lh)) as [|k ks] eqn:Kl.
      { rewrite keys_node in Kl. now destruct (keys ll). }
      simpl in K. injection K as -> _.
      inversion Hfl; subst.
      destruct (Z.ltb_spec sd d); [|lia].
      destruct (_delete_avl (Node ld ll lr lp lh) sd s) as [[l' s1]|] eqn:El; [|discriminate].
      specialize (IHl s (l', s1) ks eq_refl Hsl El). simpl in IHl. subst s1.
      destruct (_delete_avl_rebalance (Node d l' r0 p h)); [|discriminate].
      injection E as <-. reflexivity.
Qed.

Lemma delete_avl_spec (t : tree) (x s : Z) :
  shape t ->
  exists t' s',
    _delete_avl t x s = Some (t', s')
    /\ shape t'
    /\ (_get_height t' = _get_height t \/ _get_height t' = _get_height t - 1)
    /\ (sorted (keys t) ->
        sorted (keys t') /\ forall y, In y (keys t') <-> In y (keys t) /\ y <> x)
    /\ (~ In x (keys t) -> t' = t /\ s' = s)
    /\ (sorted (keys t) -> In x (keys t) -> s' = s - 1 \/ s' = s - 2).
Proof.
  revert x s. induction t as [|d l IHl r IHr p _ h]; intros x s Hs.
  - exists Nil, s. simpl. split; [reflexivity|]. split; [exact I|]. split; [auto|].
    split; [|split; [auto|contradiction]].
    intros Hsd. split; [exact Hsd|]. simpl. tauto.
  - pose proof Hs as (Hh & Hb & Hp & Hl & Hr). subst p.
    pose proof (shape_height_nonneg _ Hl) as Hl0.
    pose proof (shape_height_nonneg _ Hr) as Hr0.
    simpl. unfold bind, lift, ret, add_size. rewrite Z.gtb_ltb.
    destruct (Z.ltb_spec x d) as [Hlt|Hge]; [|destruct (Z.ltb_spec d x) as [Hgt|Hle]].
    + destruct (IHl x s Hl) as (l' & s' & El & Hl' & Hdec & Hkeys & Habs & Hpres).
      rewrite El.
      destruct (rebalance_delete d l' r Nil h Hl' Hr) as (t' & Et & Hk & Hst & Hh' & Hnoop);
        [lia|].
      rewrite Et. exists t', s'. split; [reflexivity|]. split; [auto|].
      split; [|split; [|split]].
      * destruct (Z_le_dec (-1) (_get_height l' - _get_height r)) as [Hc|Hc].
        -- rewrite Hnoop by lia. simpl. lia.
        -- simpl. lia.
      * rewrite Hk, !keys_node, !sorted_app_cons.
        intros (Hsl & Hsr & Hfl & Hfr). destruct (Hkeys Hsl) as [Hsl' Hin].
        split.
        -- repeat split; auto.
           apply Forall_forall. intros y Hy. apply Hin in Hy.
           exact (Forall_lt_in _ _ _ Hfl (proj1 Hy)).
        -- intros y. rewrite !in_app_iff. simpl. rewrite Hin. split.
           ++ intros [[Hy Hne]|[Hy|Hy]].
              ** split; auto.
              ** subst y. split; [auto|lia].
              ** pose proof (Forall_lt_in _ _ _ Hfr Hy). simpl in *.
                 split; [auto|lia].
           ++ intros [[Hy|[Hy|Hy]] Hne]; auto.
      * rewrite keys_node, in_app_iff. intros Hnot.
        destruct Habs as [-> ->]; [tauto|]. split; [|reflexivity].
        rewrite Hnoop by lia. now rewrite <- Hh.
      * rewrite keys_node, in_app_iff, sorted_app_cons. simpl.
        intros (Hsl & Hsr & Hfl & Hfr) Hx. apply Hpres; auto.
        destruct Hx as [Hx|[Hx|Hx]]; auto; [lia|].
        pose proof (Forall_lt_in _ _ _ Hfr Hx). simpl in *. lia.
    + destruct (IHr x s Hr) as (r' & s' & Er & Hr' & Hdec & Hkeys & Habs & Hpres).
      rewrite Er.
      destruct (rebalance_delete d l r' Nil h Hl Hr') as (t' & Et & Hk & Hst & Hh' & Hnoop);
        [lia|].
      rewrite Et. exists t', s'. split; [reflexivity|]. split; [auto|].
      split; [|split; [|split]].
      * destruct (Z_le_dec (_get_height l - _get_height r') 1) as [Hc|Hc].
        -- rewrite Hnoop by lia. simpl. lia.
        -- simpl. lia.
      * rewrite Hk, !keys_node, !sorted_app_cons.
        intros (Hsl & Hsr & Hfl & Hfr). destruct (Hkeys Hsr) as [Hsr' Hin].
        split.
        -- repeat split; auto.
           apply Forall_forall. intros y Hy. apply Hin in Hy.
           exact (Forall_lt_in _ _ _ Hfr (proj1 Hy)).
        -- intros y. rewrite !in_app_iff. simpl. rewrite Hin. split.
           ++ intros [Hy|[Hy|[Hy Hne]]].
              ** pose proof (Forall_lt_in _ _ _ Hfl Hy). simpl in *.
                 split; [auto|lia].
              ** subst y. split; [auto|lia].
              ** split; auto.
           ++ intros [[Hy|[Hy|Hy]] Hne]; auto.
      * rewrite keys_node, in_app_iff. simpl. intros Hnot.
        destruct Habs as [-> ->]; [tauto|]. split; [|reflexivity].
        rewrite Hnoop by lia. now rewrite <- Hh.
      * rewrite keys_node, in_app_iff, sorted_app_cons. simpl.
        intros (Hsl & Hsr & Hfl & Hfr) Hx. apply Hpres; auto.
        destruct Hx as [Hx|[Hx|Hx]]; auto; [|lia].
        pose proof (Forall_lt_in _ _ _ Hfl Hx). simpl in *. lia.
    + assert (x = d) by lia. subst x. clear Hge Hle.
      destruct l as [|ld ll lr lp lh]; [|destruct r as [|rd rl rr rp rh]].
      * exists r, (s + -1). split; [reflexivity|]. split; [auto|].
        split; [simpl in *; lia|]. rewrite keys_node. simpl.
        split; [|split; [tauto|lia]].
        intros Hsd. apply sorted_cons_inv in Hsd. destruct Hsd as [Hsr Hfr].
        split; [auto|]. intros y. split.
        -- intros Hy. pose proof (Forall_lt_in _ _ _ Hfr Hy). simpl in *.
           split; [auto|lia].
        -- intros [[Hy|Hy] Hne]; [congruence|auto].
      * exists (Node ld ll lr lp lh), (s + -1). split; [reflexivity|]. split; [auto|].
        split; [simpl in *; lia|]. rewrite (keys_node d). simpl.
        split; [|split; [rewrite in_app_iff; simpl; tauto|lia]].
        rewrite sorted_app_cons. intros (Hsl & Hsr & Hfl & Hfr).
        split; [auto|]. intros y. rewrite in_app_iff. simpl. split.
        -- intros Hy. pose proof (Forall_lt_in _ _ _ Hfl Hy). simpl in *.
           split; [auto|lia].
        -- intros [[Hy|[Hy|[]]] Hne]; [auto|congruence].
      * set (l := Node ld ll lr lp lh) in *. set (r := Node rd rl rr rp rh) in *.
        destruct (find_min_node_spec r) as (sd & mr & mp & mh & rest & Emin & Kr);
          [discriminate|].
        fold r. rewrite Emin. simpl data_of. cbv iota beta.
        destruct (IHr sd (s + -1) Hr) as (r' & s' & Er & Hr' & Hdec & Hkeys & Habs & Hpres).
        rewrite Er.
        destruct (rebalance_delete sd l r' Nil h Hl Hr') as (t' & Et & Hk & Hst & Hh' & Hnoop);
          [lia|].
        rewrite Et. exists t', s'. split; [reflexivity|]. split; [auto|].
        split; [|split; [|split]].
        -- destruct (Z_le_dec (_get_height l - _get_height r') 1) as [Hc|Hc].
           ++ rewrite Hnoop by lia. subst l r. simpl in *. lia.
           ++ subst l r. simpl in *. lia.
        -- rewrite Hk, !keys_node, !sorted_app_cons.
           intros (Hsl & Hsr & Hfl & Hfr). destruct (Hkeys Hsr) as [Hsr' Hin].
           assert (Hsdr : In sd (keys r)) by (rewrite Kr; now left).
           pose proof (Forall_lt_in _ _ _ Hfr Hsdr) as Hdsd. simpl in Hdsd.
           assert (Hmin : forall y, In y (keys r) -> y <> sd -> sd < y).
           { intros y Hy Hne. rewrite Kr in Hy, Hsr.
             apply sorted_cons_inv in Hsr. destruct Hsr as [_ Hf].
             destruct Hy as [Hy|Hy]; [congruence|].
             exact (Forall_lt_in _ _ _ Hf Hy). }
           split.
           ++ repeat split; auto.
              ** eapply Forall_impl; [|exact Hfl]. simpl. intros; lia.
              ** apply Forall_forall. intros y Hy. apply Hin in Hy.
                 destruct Hy. auto.
           ++ intros y. rewrite !in_app_iff. simpl. rewrite Hin. split.
              ** intros [Hy|[Hy|[Hy Hne]]].
                 --- pose proof (Forall_lt_in _ _ _ Hfl Hy). simpl in *.
                     split; [auto|lia].
                 --- subst y. split; [auto|lia].
                 --- pose proof (Forall_lt_in _ _ _ Hfr Hy). simpl in *.
                     split; [auto|lia].
              ** intros [[Hy|[Hy|Hy]] Hne]; [auto|congruence|].
                 destruct (Z.eq_dec y sd); [right; left; congruence|].
                 right. right. auto.
        -- rewrite keys_node, in_app_iff. simpl. tauto.
        -- rewrite keys_node, sorted_app_cons. intros (Hsl & Hsr & Hfl & Hfr) _.
           pose proof (delete_min_size r sd (s + -1) rest (r', s') Kr Hsr Er) as Hsz.
           simpl in Hsz. lia.
Qed.

(** ** The public operations on an [AVLTree] *)

Lemma avl_empty : avl empty.
Proof. split; simpl; [exact I|constructor]. Qed.

Lemma search_in (t : tree) (x : Z) :
  sorted (keys t) ->
  (_search_recursive t x <> Nil <-> In x (keys t)).
Proof.
  induction t as [|d l IHl r IHr p _ h]; simpl.
  - intros _. split; [intros H; now elim H|contradiction].
  - rewrite keys_node, sorted_app_cons, in_app_iff. simpl.
    intros (Hsl & Hsr & Hfl & Hfr).
    destruct (Z.eqb_spec d x) as [->|Hne].
    + split; [auto|discriminate].
    + destruct (Z.ltb_spec x d) as [Hlt|Hge].
      * rewrite (IHl Hsl). split; [auto|].
        intros [Hx|[Hx|Hx]]; [auto|congruence|].
        pose proof (Forall_lt_in _ _ _ Hfr Hx). simpl in *. lia.
      * rewrite (IHr Hsr). split; [auto|].
        intros [Hx|[Hx|Hx]]; [|congruence|auto].
        pose proof (Forall_lt_in _ _ _ Hfl Hx). simpl in *. lia.
Qed.

Lemma search_true_in (t : AVLTree) (x : Z) :
  avl t -> (search t x = true <-> In x (inorder_traversal t)).
Proof.
  intros [_ Hs]. unfold search, inorder_traversal. fold (keys (root t)).
  rewrite <- (search_in _ x Hs).
  destruct (_search_recursive (root t) x); split; try discriminate; auto.
Qed.

Lemma search_false_not_in (t : AVLTree) (x : Z) :
  avl t -> (search t x = false <-> ~ In x (inorder_traversal t)).
Proof.
  intros H. rewrite <- (search_true_in t x H).
  destruct (search t x); split; auto; try discriminate. intros E; now elim E.
Qed.

Lemma insert_spec (t : AVLTree) (x : Z) :
  avl t ->
  exists t',
    insert t x = Some t' /\ avl t'
    /\ (forall y, In y (inorder_traversal t') <-> y = x \/ In y (inorder_traversal t))
    /\ (In x (inorder_traversal t) -> t' = t).
Proof.
  intros [Hsh Hso]. unfold insert, inorder_traversal. fold (keys (root t)).
  destruct t as [rt sz]. simpl in *.
  destruct rt as [|d l r p h].
  - eexists. split; [reflexivity|]. split; [|split].
    + split; simpl; [repeat split; simpl; lia|repeat constructor].
    + intros y. simpl. intuition auto.
    + contradiction.
  - destruct (insert_avl_spec (Node d l r p h) x sz Hsh)
      as (t' & s' & E & Hsh' & _ & _ & _ & Hin & Hso' & _ & Hold).
    rewrite E. eexists. split; [reflexivity|]. split; [|split].
    + split; simpl; auto.
    + exact Hin.
    + intros Hx. destruct (Hold Hso Hx) as [-> ->]. reflexivity.
Qed.

Lemma delete_spec (t : AVLTree) (x : Z) :
  avl t ->
  exists b t',
    delete t x = Some (b, t') /\ avl t'
    /\ (forall y, In y (inorder_traversal t') <-> In y (inorder_traversal t) /\ y <> x)
    /\ (b = true <-> In x (inorder_traversal t))
    /\ (~ In x (inorder_traversal t) -> t' = t)
    /\ (In x (inorder_traversal t) -> size t' = size t - 1 \/ size t' = size t - 2).
Proof.
  intros [Hsh Hso]. unfold delete, inorder_traversal. fold (keys (root t)).
  destruct t as [rt sz]. simpl in *.
  destruct rt as [|d l r p h].
  - exists false, (mkTree Nil sz). split; [reflexivity|]. split; [split; auto|].
    simpl. split; [tauto|]. split; [split; [discriminate|contradiction]|].
    split; [auto|contradiction].
  - destruct (delete_avl_spec (Node d l r p h) x sz Hsh)
      as (t' & s' & E & Hsh' & _ & Hkeys & Habs & Hpres).
    destruct (Hkeys Hso) as [Hso' Hin].
    rewrite E. eexists _, _. split; [reflexivity|]. split; [split; simpl; auto|].
    split; [exact Hin|]. simpl. split; [|split].
    + destruct (in_dec Z.eq_dec x (keys (Node d l r p h))) as [Hx|Hx].
      * specialize (Hpres Hso Hx). split; [auto|]. intros _. apply Z.ltb_lt. lia.
      * destruct (Habs Hx) as [_ ->]. rewrite Z.ltb_irrefl. split; [discriminate|contradiction].
    + intros Hx. destruct (Habs Hx) as [-> ->]. reflexivity.
    + intros Hx. apply (Hpres Hso Hx).
Qed.

Lemma step_avl (t : AVLTree) (o : op) :
  avl t -> exists t', step t o = Some t' /\ avl t'.
Proof.
  intros H. destruct o as [x|x]; simpl.
  - destruct (insert_spec t x H) as (t' & E & H' & _). eauto.
  - destruct (delete_spec t x H) as (b & t' & E & H' & _). rewrite E. simpl. eauto.
Qed.

Lemma run_avl (ops : list op) (t : AVLTree) :
  avl t -> exists t', run ops t = Some t' /\ avl t'.
Proof.
  revert t. induction ops as [|o ops IH]; intros t H; simpl.
  - eauto.
  - destruct (step_avl t o H) as (t1 & E & H1). rewrite E. simpl. auto.
Qed.

Lemma reachable_avl (t : AVLTree) : reachable t -> avl t.
Proof.
  intros [ops E]. destruct (run_avl ops empty avl_empty) as (t' & E' & H).
  congruence.
Qed.

Lemma run_app (ops1 ops2 : list op) (t : AVLTree) :
  run (ops1 ++ ops2) t = obind (run ops1 t) (run ops2).
Proof.
  revert t. induction ops1 as [|o ops1 IH]; intros t; simpl; [reflexivity|].
  destruct (step t o); simpl; auto.
Qed.

Lemma build_spec (l : list Z) (t0 : AVLTree) :
  avl t0 ->
  exists t,
    run (map Insert l) t0 = Some t /\ avl t
    /\ forall y, In y (inorder_traversal t) <-> In y l \/ In y (inorder_traversal t0).
Proof.
  revert t0. induction l as [|x l IH]; intros t0 H0; simpl.
  - exists t0. split; [reflexivity|]. split; [assumption|]. tauto.
  - destruct (insert_spec t0 x H0) as (t1 & E & H1 & Hin & _).
    rewrite E. simpl.
    destruct (IH t1 H1) as (t & Er & Ht & Hin').
    exists t. split; [exact Er|]. split; [assumption|].
    intros y. rewrite Hin', Hin. intuition auto.
Qed.

Lemma build_distinct (l : list Z) :
  NoDup l ->
  exists t, build l = Some t /\ avl t /\ Permutation (inorder_traversal t) l.
Proof.
  intros Hnd. destruct (build_spec l empty avl_empty) as (t & E & Havl & Hin).
  exists t. split; [exact E|]. split; [exact Havl|].
  apply NoDup_Permutation; [apply sorted_NoDup, Havl|exact Hnd|].
  intros y. rewrite Hin. simpl. tauto.
Qed.

Lemma find_max_in_subtree_spec (t : tree) :
  t <> Nil ->
  exists mx front, _find_max_in_subtree t = Some mx /\ keys t = front ++ [mx].
Proof.
  induction t as [|d l _ r IHr p _ h]; intros Hn; [now elim Hn|].
  destruct r as [|rd rl rr rp rh].
  - exists d, (keys l). split; [reflexivity|]. now rewrite keys_node.
  - destruct IHr as (mx & front & E & K); [discriminate|].
    exists mx, (keys l ++ d :: front). split.
    + simpl in *. exact E.
    + rewrite keys_node, K, <- app_assoc. reflexivity.
Qed.

Lemma is_balanced_helper_cached (t : tree) :
  _is_balanced_helper t = true <-> cached_balanced t.
Proof.
  induction t as [|d l IHl r IHr p _ h]; simpl.
  - tauto.
  - rewrite !andb_true_iff, IHl, IHr, Z.leb_le. tauto.
Qed.

Lemma heights_ok_cached_balanced (t : tree) :
  heights_ok t -> (cached_balanced t <-> balanced t).
Proof.
  induction t as [|d l IHl r IHr p _ h]; simpl.
  - tauto.
  - intros (_ & Hl & Hr).
    rewrite (heights_ok_levels l Hl), (heights_ok_levels r Hr), (IHl Hl), (IHr Hr).
    tauto.
Qed.

Lemma climb_while_left_nil (node : tree) : climb_while_left node Nil = Nil.
Proof. reflexivity. Qed.

Lemma climb_while_right_nil (node : tree) : climb_while_right node Nil = Nil.
Proof. reflexivity. Qed.

Lemma search_recursive_no_parent (t : tree) (x : Z) :
  no_parent t -> no_parent (_search_recursive t x).
Proof.
  induction t as [|d l IHl r IHr p _ h]; simpl; auto.
  intros (Hp & Hl & Hr).
  destruct (d =? x); [simpl; auto|].
  destruct (x <? d); auto.
Qed.

(** What [find_successor] and [find_predecessor] compute on an AVL tree:
    the parent references are never set, so the walk towards the root ends
    at once and the answer is [None] unless the node found has the child
    looked at. *)
Lemma find_successor_no_parent (t : AVLTree) (x : Z) :
  reachable t ->
  find_successor t x =
    match _search_recursive (root t) x with
    | Node _ _ (Node _ _ _ _ _ as r) _ _ =>
      obind (_find_min_node r) (fun m => obind (data_of m) (fun d => Some (Some d)))
    | _ => Some None
    end.
Proof.
  intros Hr. apply reachable_avl in Hr. destruct Hr as [Hsh _].
  apply shape_no_parent in Hsh.
  pose proof (search_recursive_no_parent _ x Hsh) as Hn.
  unfold find_successor.
  destruct (_search_recursive (root t) x) as [|d l r p h]; [reflexivity|].
  destruct r; [|reflexivity].
  simpl in Hn. destruct Hn as (-> & _). reflexivity.
Qed.

Lemma find_predecessor_no_parent (t : AVLTree) (x : Z) :
  reachable t ->
  find_predecessor t x =
    match _search_recursive (root t) x with
    | Node _ (Node _ _ _ _ _ as l) _ _ _ =>
      obind (_find_max_in_subtree l) (fun d => Some (Some d))
    | _ => Some None
    end.
Proof.
  intros Hr. apply reachable_avl in Hr. destruct Hr as [Hsh _].
  apply shape_no_parent in Hsh.
  pose proof (search_recursive_no_parent _ x Hsh) as Hn.
  unfold find_predecessor.
  destruct (_search_recursive (root t) x) as [|d l r p h]; [reflexivity|].
  destruct l; [|reflexivity].
  simpl in Hn. destruct Hn as (-> & _). reflexivity.
Qed.

Lemma rotate_right_fails_iff (y : tree) :
  _rotate_right y = None <->
  match y with
  | Node _ (Node _ _ _ _ _) _ _ _ => False
  | _ => True
  end.
Proof.
  destruct y as [|d [|xd xl xr xp xh] r p h]; simpl;
    split; intros H; auto; try discriminate; contradiction.
Qed.

Lemma rotate_left_fails_iff (x : tree) :
  _rotate_left x = None <->
  match x with
  | Node _ _ (Node _ _ _ _ _) _ _ => False
  | _ => True
  end.
Proof.
  destruct x as [|d l [|yd yl yr yp yh] p h]; simpl;
    split; intros H; auto; try discriminate; contradiction.
Qed.

(** ** [get_height] *)

Lemma get_height_from_root (fuel : nat) (rt : tree) :
  get_height_from fuel rt Nil = get_height_from fuel rt rt.
Proof. destruct fuel; [reflexivity|]. simpl. destruct rt; reflexivity. Qed.

Lemma get_height_from_half (rt : tree) (f1 : nat) :
  (forall f', (f' <= f1)%nat -> get_height_from f' rt Nil = None) ->
  forall sub, has_half sub = true ->
  forall f2, (f2 <= S f1)%nat -> get_height_from f2 rt sub = None.
Proof.
  intros Hroot. induction sub as [|d l IHl r IHr p _ h]; intros Hh f2 Hf2.
  - discriminate.
  - destruct f2 as [|f3]; [reflexivity|].
    assert (Hf3 : (f3 <= f1)%nat) by lia.
    assert (Hf3' : (f3 <= S f1)%nat) by lia.
    destruct l as [|ld ll lr lp lh], r as [|rd rl rr rp rh].
    + discriminate.
    + change (get_height_from (S f3) rt (Node d Nil (Node rd rl rr rp rh) p h))
        with (obind (get_height_from f3 rt Nil)
                (fun left_height => obind (get_height_from f3 rt (Node rd rl rr rp rh))
                   (fun right_height => Some (Z.max left_height right_height + 1)))).
      now rewrite (Hroot f3 Hf3).
    + specialize (Hroot f3 Hf3).
      change (get_height_from (S f3) rt (Node d (Node ld ll lr lp lh) Nil p h))
        with (obind (get_height_from f3 rt (Node ld ll lr lp lh))
                (fun left_height => obind (get_height_from f3 rt Nil)
                   (fun right_height => Some (Z.max left_height right_height + 1)))).
      rewrite Hroot. now destruct (get_height_from f3 rt (Node ld ll lr lp lh)).
    + change (get_height_from (S f3) rt (Node d (Node ld ll lr lp lh) (Node rd rl rr rp rh) p h))
        with (obind (get_height_from f3 rt (Node ld ll lr lp lh))
                (fun left_height => obind (get_height_from f3 rt (Node rd rl rr rp rh))
                   (fun right_height => Some (Z.max left_height right_height + 1)))).
      change (has_half (Node ld ll lr lp lh) || has_half (Node rd rl rr rp rh) = true) in Hh.
      apply orb_true_iff in Hh. destruct Hh as [Hh|Hh].
      * now rewrite (IHl Hh f3 Hf3').
      * rewrite (IHr Hh f3 Hf3').
        now destruct (get_height_from f3 rt (Node ld ll lr lp lh)).
Qed.

Lemma get_height_diverges (rt : tree) :
  has_half rt = true -> forall fuel, get_height_from fuel rt Nil = None.
Proof.
  intros Hh.
  assert (H : forall n f, (f <= n)%nat -> get_height_from f rt Nil = None).
  { induction n as [|n IH]; intros f Hf.
    - assert (f = O) by lia. subst f. reflexivity.
    - rewrite get_height_from_root.
      apply (get_height_from_half rt n IH rt Hh f Hf). }
  intros fuel. apply (H fuel fuel). lia.
Qed.

Lemma levels_nonneg (t : tree) : 0 <= levels t.
Proof. induction t; simpl; lia. Qed.

Lemma get_height_from_full (rt sub : tree) :
  has_half sub = false -> sub <> Nil ->
  (forall f, levels sub <= Z.of_nat f ->
             get_height_from f rt sub = Some (edge_height sub))
  /\ (forall f h, get_height_from f rt sub = Some h -> h = edge_height sub).
Proof.
  unfold edge_height.
  induction sub as [|d l IHl r IHr p _ h0]; intros Hh Hn; [now elim Hn|].
  pose proof (levels_nonneg l). pose proof (levels_nonneg r).
  destruct l as [|ld ll lr lp lh], r as [|rd rl rr rp rh]; try discriminate.
  - split.
    + intros [|f] Hf; [simpl in Hf; lia|]. reflexivity.
    + intros [|f] h E; [discriminate|]. simpl in E. injection E as <-. reflexivity.
  - change (has_half (Node ld ll lr lp lh) || has_half (Node rd rl rr rp rh) = false) in Hh.
    apply orb_false_iff in Hh. destruct Hh as [Hhl Hhr].
    destruct (IHl Hhl) as [IHl1 IHl2]; [discriminate|].
    destruct (IHr Hhr) as [IHr1 IHr2]; [discriminate|].
    set (l := Node ld ll lr lp lh) in *. set (r := Node rd rl rr rp rh) in *.
    assert (Hstep : forall f, get_height_from (S f) rt (Node d l r p h0)
              = obind (get_height_from f rt l)
                  (fun left_height => obind (get_height_from f rt r)
                     (fun right_height => Some (Z.max left_height right_height + 1))))
      by reflexivity.
    change (levels (Node d l r p h0)) with (Z.max (levels l) (levels r) + 1).
    split.
    + intros [|f] Hf; [lia|].
      rewrite Hstep, IHl1, IHr1 by lia. simpl. f_equal. lia.
    + intros [|f] h E; [discriminate|]. rewrite Hstep in E.
      destruct (get_height_from f rt l) as [hl|] eqn:El; [|discriminate].
      destruct (get_height_from f rt r) as [hr|] eqn:Er; [|discriminate].
      simpl in E. injection E as <-.
      rewrite (IHl2 _ _ El), (IHr2 _ _ Er). lia.
Qed.

(** What [get_height()] returns: nothing when some node has exactly one
    child (the recursive call on the absent child starts over from the
    root), and the height counted in edges otherwise. *)
Lemma get_height_spec (t : AVLTree) :
  (has_half (root t) = true -> forall fuel, get_height fuel t = None)
  /\ (has_half (root t) = false ->
      exists fuel, get_height fuel t = Some (edge_height (root t)))
  /\ (forall fuel h, get_height fuel t = Some h -> h = edge_height (root t)).
Proof.
  unfold get_height. split; [|split].
  - apply get_height_diverges.
  - intros Hh. destruct (root t) as [|d l r p h0] eqn:E.
    + exists 1%nat. reflexivity.
    + exists (Z.to_nat (levels (Node d l r p h0))). rewrite get_height_from_root.
      apply get_height_from_full; [assumption|discriminate|].
      pose proof (levels_nonneg (Node d l r p h0)). lia.
  - intros fuel h E. destruct (has_half (root t)) eqn:Hh.
    + rewrite (get_height_diverges _ Hh) in E. discriminate.
    + destruct (root t) as [|d l r p h0] eqn:Er.
      * destruct fuel; [discriminate|]. simpl in E. injection E as <-. reflexivity.
      * rewrite get_height_from_root in E.
        eapply get_height_from_full; eauto. discriminate.
Qed.

(** ** Number of nodes and height *)

Lemma count_nonneg (t : tree) : 0 <= count t.
Proof. induction t; simpl; lia. Qed.

Lemma count_keys (t : tree) : count t = Z.of_nat (length (keys t)).
Proof.
  induction t as [|d l IHl r IHr p _ h]; [reflexivity|].
  rewrite keys_node, length_app. simpl. lia.
Qed.

(** A subtree with [k] levels or more has at least [(377/233) ^ k - 1]
    nodes; [377/233] is a little less than the golden ratio. *)
Lemma avl_count_lower_bound (t : tree) :
  shape t ->
  forall k : nat, Z.of_nat k <= _get_height t ->
  377 ^ Z.of_nat k <= (count t + 1) * 233 ^ Z.of_nat k.
Proof.
  induction t as [|d l IHl r IHr p _ h]; intros Hs k Hk.
  - simpl in Hk. assert (k = O) by lia. subst k. simpl. lia.
  - destruct Hs as (Hh & Hb & _ & Hl & Hr).
    specialize (IHl Hl). specialize (IHr Hr).
    pose proof (count_nonneg l). pose proof (count_nonneg r).
    simpl in Hk. simpl count.
    destruct k as [|[|k]].
    + simpl. lia.
    + change (Z.of_nat 1) with 1. rewrite !Z.pow_1_r. lia.
    + rewrite !Nat2Z.inj_succ in *. rewrite !Z.pow_succ_r by lia.
      assert (HX : 0 < 377 ^ Z.of_nat k) by (apply Z.pow_pos_nonneg; lia).
      assert (HY : 0 < 233 ^ Z.of_nat k) by (apply Z.pow_pos_nonneg; lia).
      destruct (Z_le_gt_dec (_get_height r) (_get_height l)) as [Hc|Hc].
      * assert (H1 := IHl (S k)). assert (H2 := IHr k).
        rewrite Nat2Z.inj_succ, !Z.pow_succ_r in H1 by lia.
        specialize (H1 ltac:(lia)). specialize (H2 ltac:(lia)).
        revert H1 H2 HX HY.
        generalize (377 ^ Z.of_nat k) (233 ^ Z.of_nat k). intros X Y H1 H2 HX HY.
        nia.
      * assert (H1 := IHl k). assert (H2 := IHr (S k)).
        rewrite Nat2Z.inj_succ, !Z.pow_succ_r in H2 by lia.
        specialize (H1 ltac:(lia)). specialize (H2 ltac:(lia)).
        revert H1 H2 HX HY.
        generalize (377 ^ Z.of_nat k) (233 ^ Z.of_nat k). intros X Y H1 H2 HX HY.
        nia.
Qed.

(** From [(a/b)^H <= m] and [2^j <= (a/b)^k] with [q/p <= j/k]:
    [2^(q*H) <= m^p], that is [H <= (p/q) * log2 m]. *)
Lemma pow_bound (a b m k j p q : Z) (H : nat) :
  0 < a -> 0 < b -> 0 < m -> 0 < k -> 0 <= j -> 0 <= p -> 0 <= q ->
  2 ^ j * b ^ k <= a ^ k ->
  q * k <= j * p ->
  a ^ Z.of_nat H <= m * b ^ Z.of_nat H ->
  2 ^ (q * Z.of_nat H) <= m ^ p.
Proof.
  intros Ha Hb Hm Hk Hj Hp Hq Hc Hqk Hab.
  set (h := Z.of_nat H) in *. assert (Hh : 0 <= h) by (unfold h; lia).
  (* 2^(j*h) <= m^k *)
  assert (H1 : 2 ^ (j * h) <= m ^ k).
  { assert (HB : 0 < (b ^ k) ^ h) by (repeat apply Z.pow_pos_nonneg; lia).
    apply (Z.mul_le_mono_pos_r _ _ _ HB).
    rewrite Z.pow_mul_r, <- Z.pow_mul_l by lia.
    apply Z.le_trans with ((a ^ k) ^ h).
    - apply Z.pow_le_mono_l. split; [|exact Hc].
      apply Z.mul_nonneg_nonneg; apply Z.pow_nonneg; lia.
    - rewrite <- !Z.pow_mul_r, (Z.mul_comm k h), !Z.pow_mul_r by lia.
      rewrite <- Z.pow_mul_l.
      apply Z.pow_le_mono_l. split; [apply Z.pow_nonneg; lia|exact Hab]. }
  (* (2^(q*h))^k <= (m^p)^k *)
  apply (Z.pow_le_mono_l_iff _ _ k);
    [apply Z.pow_nonneg; lia|apply Z.pow_nonneg; lia|exact Hk|].
  rewrite <- !Z.pow_mul_r by nia.
  apply Z.le_trans with (2 ^ (j * h * p)).
  - apply Z.pow_le_mono_r; [lia|nia].
  - rewrite (Z.mul_comm p k), !Z.pow_mul_r by nia.
    apply Z.pow_le_mono_l. rewrite <- Z.pow_mul_r by lia.
    split; [apply Z.pow_nonneg; lia|exact H1].
Qed.

Lemma golden_constant : 2 ^ 84 * 233 ^ 121 <= 377 ^ 121.
Proof. apply Z.leb_le. vm_compute. reflexivity. Qed.

(** In integers: [levels <= 1.4405 * log2 (count + 1)]. *)
Lemma avl_height_bound_Z (t : tree) :
  shape t -> 2 ^ (2000 * _get_height t) <= (count t + 1) ^ 2881.
Proof.
  intros Hs. pose proof (shape_height_nonneg _ Hs) as Hh.
  pose proof (count_nonneg t).
  rewrite <- (Z2Nat.id (_get_height t)) by exact Hh.
  assert (Hc : 0 < count t + 1) by lia.
  apply (pow_bound 377 233 (count t + 1) 121 84 2881 2000 (Z.to_nat (_get_height t))
           eq_refl eq_refl Hc eq_refl ltac:(discriminate) ltac:(discriminate)
           ltac:(discriminate) golden_constant ltac:(discriminate)).
  apply avl_count_lower_bound; [assumption|]. rewrite Z2Nat.id; lia.
Qed.

(** ** Every AVL tree is the result of a sequence of [insert] calls *)

(** A non-empty AVL tree is the result of inserting one key into an AVL
    tree with one node less: remove a leaf of a highest branch. *)
Lemma shape_height_zero (t : tree) : shape t -> _get_height t <= 0 -> t = Nil.
Proof.
  destruct t as [|d l r p h]; [reflexivity|].
  intros Hs. apply shape_height_pos in Hs. simpl. lia.
Qed.

Lemma shape_nil_dec (t : tree) : {t = Nil} + {t <> Nil}.
Proof. destruct t; [left; reflexivity|right; discriminate]. Qed.

Lemma last_insertion (t : tree) :
  t <> Nil -> shape t -> sorted (keys t) ->
  exists t0 x,
    shape t0 /\ sorted (keys t0)
    /\ (forall y, In y (keys t) <-> y = x \/ In y (keys t0))
    /\ ~ In x (keys t0)
    /\ count t = count t0 + 1
    /\ (_get_height t0 = _get_height t \/ _get_height t0 = _get_height t - 1)
    /\ forall s, _insert_avl t0 x s = Some (t, s + 1).
Proof.
  induction t as [|d l IHl r IHr p _ h]; intros Hn Hs Hso; [now elim Hn|].
  pose proof Hs as (Hh & Hb & Hp & Hl & Hr). subst p.
  pose proof (shape_height_nonneg _ Hl) as Hl0.
  pose proof (shape_height_nonneg _ Hr) as Hr0.
  rewrite keys_node in Hso. apply sorted_app_cons in Hso.
  destruct Hso as (Hsl & Hsr & Hfl & Hfr).
  destruct (Z_le_gt_dec (_get_height r) (_get_height l)) as [Hc|Hc].
  - destruct (shape_nil_dec l) as [El|El].
    + (* both children absent *)
      subst l. assert (r = Nil) by (apply shape_height_zero; simpl in *; auto).
      subst r.
      exists Nil, d. simpl in Hh. change (Z.max 0 0) with 0 in Hh. subst h.
      split; [exact I|]. split; [constructor|].
      split; [intros y; simpl; intuition auto|]. split; [auto|].
      split; [reflexivity|]. split; [right; reflexivity|]. reflexivity.
    + 
      destruct (IHl El Hl Hsl)
        as (l0 & x & Hl0s & Hl0so & Hin & Hnin & Hcnt & Hgh & Hins).
      assert (Hxl : In x (keys l)) by (apply Hin; now left).
      pose proof (Forall_lt_in _ _ _ Hfl Hxl) as Hxd. simpl in Hxd.
      pose proof (shape_height_nonneg _ Hl0s) as Hl00.
      exists (Node d l0 r Nil (Z.max (_get_height l0) (_get_height r) + 1)), x.
      split; [simpl; repeat split; auto; lia|].
      split.
      { rewrite keys_node. apply sorted_app_cons. repeat split; auto.
        apply Forall_forall. intros y Hy.
        apply (Forall_lt_in _ _ _ Hfl). apply Hin. now right. }
      split.
      { intros y. rewrite !keys_node, !in_app_iff. simpl. rewrite Hin. tauto. }
      split.
      { rewrite keys_node, in_app_iff. simpl. intros [Hx|[Hx|Hx]]; [auto|lia|].
        pose proof (Forall_lt_in _ _ _ Hfr Hx). simpl in *. lia. }
      split; [simpl count; lia|].
      split; [simpl _get_height; lia|].
      intros s. simpl. unfold bind, lift.
      destruct (Z.ltb_spec x d); [|lia]. rewrite Hins.
      destruct (rebalance_insert_left d l r Nil
                  (Z.max (_get_height l0) (_get_height r) + 1) x Hl Hr)
        as (t' & Et & _ & _ & _ & Hcase); [lia|lia|].
      rewrite Et. destruct Hcase as [[_ ->]|[Hcase _]]; [|lia].
      now rewrite <- Hh.
  - assert (Er : r <> Nil) by (intros ->; simpl in *; lia).
    destruct (IHr Er Hr Hsr)
      as (r0 & x & Hr0s & Hr0so & Hin & Hnin & Hcnt & Hgh & Hins).
    assert (Hxr : In x (keys r)) by (apply Hin; now left).
    pose proof (Forall_lt_in _ _ _ Hfr Hxr) as Hxd. simpl in Hxd.
    pose proof (shape_height_nonneg _ Hr0s) as Hr00.
    exists (Node d l r0 Nil (Z.max (_get_height l) (_get_height r0) + 1)), x.
    split; [simpl; repeat split; auto; lia|].
    split.
    { rewrite keys_node. apply sorted_app_cons. repeat split; auto.
      apply Forall_forall. intros y Hy.
      apply (Forall_lt_in _ _ _ Hfr). apply Hin. now right. }
    split.
    { intros y. rewrite !keys_node, !in_app_iff. simpl. rewrite Hin. tauto. }
    split.
    { rewrite keys_node, in_app_iff. simpl. intros [Hx|[Hx|Hx]]; [|lia|auto].
      pose proof (Forall_lt_in _ _ _ Hfl Hx). simpl in *. lia. }
    split; [simpl count; lia|].
    split; [simpl _get_height; lia|].
    intros s. simpl. unfold bind, lift. rewrite Z.gtb_ltb.
    destruct (Z.ltb_spec x d); [lia|]. destruct (Z.ltb_spec d x); [|lia].
    rewrite Hins.
    destruct (rebalance_insert_right d l r Nil
                (Z.max (_get_height l) (_get_height r0) + 1) x Hl Hr)
      as (t' & Et & _ & _ & _ & Hcase); [lia|lia|].
    rewrite Et. destruct Hcase as [[_ ->]|[Hcase _]]; [|lia].
    now rewrite <- Hh.
Qed.

Lemma count_zero (t : tree) : count t = 0 -> t = Nil.
Proof.
  destruct t as [|d l r p h]; [reflexivity|]. simpl.
  pose proof (count_nonneg l). pose proof (count_nonneg r). lia.
Qed.

Lemma insert_root (t0 t : tree) (x s : Z) :
  (forall s, _insert_avl t0 x s = Some (t, s + 1)) ->
  count t0 = s ->
  insert (mkTree t0 s) x = Some (mkTree t (s + 1)).
Proof.
  intros Hins Hs. unfold insert. simpl.
  destruct t0 as [|d l r p h].
  - simpl in Hs. subst s. specialize (Hins 0). simpl in Hins.
    unfold bind, add_size, ret in Hins. injection Hins as <-. reflexivity.
  - now rewrite Hins.
Qed.

Lemma avl_buildable (n : nat) (t : tree) :
  count t = Z.of_nat n -> shape t -> sorted (keys t) ->
  exists l,
    NoDup l /\ length l = n /\ build l = Some (mkTree t (Z.of_nat n)).
Proof.
  revert t. induction n as [|n IH]; intros t Hc Hs Hso.
  - apply count_zero in Hc. subst t. exists []. repeat split. constructor.
  - assert (Hn : t <> Nil) by (intros ->; simpl in Hc; lia).
    destruct (last_insertion t Hn Hs Hso)
      as (t0 & x & Hs0 & Hso0 & Hin & Hnin & Hcnt & _ & Hins).
    assert (Hc0 : count t0 = Z.of_nat n) by lia.
    destruct (IH t0 Hc0 Hs0 Hso0) as (l0 & Hnd & Hlen & Hb).
    destruct (build_spec l0 empty avl_empty) as (t1 & Hb' & _ & Hin0).
    unfold build in Hb. rewrite Hb in Hb'. injection Hb' as <-.
    exists (l0 ++ [x]). split; [|split].
    + apply NoDup_app; [exact Hnd|repeat constructor; auto|].
      intros y Hy [Hxy|[]]. subst y. apply Hnin.
      apply (proj2 (Hin0 x)). now left.
    + rewrite length_app. simpl. lia.
    + unfold build. rewrite map_app, run_app, Hb. simpl.
      rewrite (insert_root t0 t x (Z.of_nat n) Hins Hc0). simpl.
      do 2 f_equal. lia.
Qed.

(** ** The sparsest AVL trees *)

Lemma Nmin_SS (h : nat) : Nmin (S (S h)) = Nmin (S h) + Nmin h + 1.
Proof.
  unfold Nmin. simpl. destruct (fibpair h) as [a b]. simpl. lia.
Qed.

Lemma Nmin_nonneg (h : nat) : 0 <= Nmin h /\ 0 <= Nmin (S h).
Proof.
  induction h as [|h [IH1 IH2]].
  - split; [reflexivity|]. unfold Nmin. simpl. lia.
  - split; [exact IH2|]. rewrite Nmin_SS. lia.
Qed.

Lemma fibtree_SS (h : nat) (lo : Z) :
  fibtree (S (S h)) lo =
  Node (lo + Nmin (S h)) (fibtree (S h) lo) (fibtree h (lo + Nmin (S h) + 1)) Nil
       (Z.of_nat (S (S h))).
Proof. reflexivity. Qed.

Lemma fibtree_spec (h : nat) : fibtree_ok h /\ fibtree_ok (S h).
Proof.
  induction h as [|h [IH1 IH2]].
  - split; intros lo.
    + simpl. repeat split; constructor.
    + change (Nmin 1) with 1. simpl. repeat split; try lia.
      * repeat constructor.
      * repeat constructor; lia.
  - split; [exact IH2|]. intros lo.
    destruct (IH2 lo) as (Hs1 & Hh1 & Hc1 & Hso1 & Hf1).
    destruct (IH1 (lo + Nmin (S h) + 1)) as (Hs0 & Hh0 & Hc0 & Hso0 & Hf0).
    destruct (Nmin_nonneg h) as [Hn0 Hn1].
    rewrite fibtree_SS, Nmin_SS.
    set (l := fibtree (S h) lo) in *.
    set (r := fibtree h (lo + Nmin (S h) + 1)) in *.
    split; [|split; [|split; [|split]]].
    + simpl. rewrite Hh1, Hh0. repeat split; auto; lia.
    + reflexivity.
    + simpl. lia.
    + rewrite keys_node. apply sorted_app_cons. repeat split; auto.
      * eapply Forall_impl; [|exact Hf1]. simpl. intros; lia.
      * eapply Forall_impl; [|exact Hf0]. simpl. intros; lia.
    + rewrite keys_node. apply Forall_app. split; [|constructor].
      * eapply Forall_impl; [|exact Hf1]. simpl. intros; lia.
      * lia.
      * eapply Forall_impl; [|exact Hf0]. simpl. intros; lia.
Qed.

Lemma pow_lt_via_mantissa (x m e p E : Z) :
  0 <= x <= m * 2 ^ e -> m ^ p < 2 ^ (E - p * e) ->
  0 <= e -> 0 < p -> p * e <= E ->
  x ^ p < 2 ^ E.
Proof.
  intros [Hx0 Hx] Hm He Hp HE.
  apply Z.le_lt_trans with ((m * 2 ^ e) ^ p).
  - apply Z.pow_le_mono_l. split; assumption.
  - rewrite Z.pow_mul_l, <- Z.pow_mul_r by lia.
    replace E with ((E - p * e) + e * p) at 1 by lia.
    rewrite Z.pow_add_r by nia.
    apply Z.mul_lt_mono_pos_r; [apply Z.pow_pos_nonneg; nia|exact Hm].
Qed.

Lemma Nmin_1124 : 0 <= Nmin 1124 + 2 <= 48157 * 2 ^ 765.
Proof.
  split.
  - destruct (Nmin_nonneg 1124). lia.
  - apply Z.leb_le. vm_compute. reflexivity.
Qed.

Lemma mantissa_1124 : 48157 ^ 36 < 2 ^ (25 * 1124 - 36 * 765).
Proof. apply Z.ltb_lt. vm_compute. reflexivity. Qed.

(** In integers: an AVL tree with 1124 levels built by [insert] calls on
    [n] distinct keys with [1124 > 1.44 * log2 (n + 2)]. *)
Lemma sparse_tree_Z :
  exists (l : list Z) (t : AVLTree),
    NoDup l /\ build l = Some t
    /\ levels (root t) = 1124
    /\ (Z.of_nat (length l) + 2) ^ 36 < 2 ^ (25 * 1124).
Proof.
  destruct (fibtree_spec 1124) as [Hok _].
  destruct (Hok 0) as (Hs & Hh & Hc & Hso & _).
  destruct (Nmin_nonneg 1124) as [Hn _].
  pose proof Nmin_1124 as Hm. pose proof mantissa_1124 as Hm'.
  revert Hs Hh Hc Hso Hn Hm. generalize (Nmin 1124) (fibtree 1124 0).
  intros n t Hs Hh Hc Hso Hn Hm.
  assert (Hcn : count t = Z.of_nat (Z.to_nat n)) by (rewrite Z2Nat.id; auto).
  destruct (avl_buildable (Z.to_nat n) t Hcn Hs Hso) as (l & Hnd & Hlen & Hb).
  exists l, (mkTree t (Z.of_nat (Z.to_nat n))).
  split; [exact Hnd|]. split; [exact Hb|]. split.
  - simpl root. rewrite <- shape_levels by assumption. rewrite Hh. reflexivity.
  - rewrite Hlen, Z2Nat.id by assumption.
    apply (pow_lt_via_mantissa (n + 2) 48157 765 36 (25 * 1124) Hm Hm');
      [discriminate|reflexivity|discriminate].
Qed.

(** ** Powers and logarithms *)

Lemma ln_le_mono (a b : R) : (0 < a)%R -> (a <= b)%R -> (ln a <= ln b)%R.
Proof.
  intros Ha [Hlt | Heq]; [|rewrite Heq; apply Rle_refl].
  left. now apply ln_increasing.
Qed.

Lemma ln2_pos : (0 < ln 2)%R.
Proof. pose proof ln_lt_2. lra. Qed.

Lemma IZR_pow_nat (x : Z) (n : nat) : IZR (x ^ Z.of_nat n) = (IZR x ^ n)%R.
Proof. symmetry. apply pow_IZR. Qed.

(** [2^(q*H) <= x^p] gives [H <= (p/q) * log2 x]. *)
Lemma log2R_ge_of_pow (x : Z) (p q H : nat) :
  0 < x -> (0 < q)%nat ->
  2 ^ (Z.of_nat q * Z.of_nat H) <= x ^ Z.of_nat p ->
  (INR H <= INR p / INR q * log2R (IZR x))%R.
Proof.
  intros Hx Hq Hpow. unfold log2R.
  apply IZR_le in Hpow. rewrite <- Nat2Z.inj_mul, !IZR_pow_nat in Hpow.
  assert (Hx' : (0 < IZR x)%R) by (now apply IZR_lt).
  apply ln_le_mono in Hpow; [|apply pow_lt; lra].
  rewrite !ln_pow, mult_INR in Hpow by (assumption || lra).
  pose proof ln2_pos as H2. assert (HQ : (0 < INR q)%R) by (now apply lt_0_INR).
  apply Rmult_le_reg_r with (INR q * ln 2)%R; [apply Rmult_lt_0_compat; assumption|].
  replace (INR p / INR q * (ln (IZR x) / ln 2) * (INR q * ln 2))%R
    with (INR p * ln (IZR x))%R by (field; split; lra).
  lra.
Qed.

(** [x^p < 2^(q*H)] gives [(p/q) * log2 x < H]. *)
Lemma log2R_lt_of_pow (x : Z) (p q H : nat) :
  0 < x -> (0 < q)%nat ->
  x ^ Z.of_nat p < 2 ^ (Z.of_nat q * Z.of_nat H) ->
  (INR p / INR q * log2R (IZR x) < INR H)%R.
Proof.
  intros Hx Hq Hpow. unfold log2R.
  apply IZR_lt in Hpow. rewrite <- Nat2Z.inj_mul, !IZR_pow_nat in Hpow.
  assert (Hx' : (0 < IZR x)%R) by (now apply IZR_lt).
  apply ln_increasing in Hpow; [|apply pow_lt; lra].
  rewrite !ln_pow, mult_INR in Hpow by (assumption || lra).
  pose proof ln2_pos as H2. assert (HQ : (0 < INR q)%R) by (now apply lt_0_INR).
  apply Rmult_lt_reg_r with (INR q * ln 2)%R; [apply Rmult_lt_0_compat; assumption|].
  replace (INR p / INR q * (ln (IZR x) / ln 2) * (INR q * ln 2))%R
    with (INR p * ln (IZR x))%R by (field; split; lra).
  lra.
Qed.
(** ** The height bound with the constant 1.44 *)

(** The constant 1.44 is below [1 / log2 ((1 + sqrt 5) / 2) = 1.44042...]:
    the sparsest AVL tree with 1124 levels, which holds about 2^780 keys, is
    built by [insert] calls on distinct keys, and its height counted in
    edges, 1123, exceeds [1.44 * log2 (n + 2) - 1] for its number [n] of
    keys.  So the bound with 1.44 is proved below for a bounded number of
    keys only. *)
Lemma sparse_tree_exceeds_144 :
  exists (l : list Z) (t : AVLTree),
    NoDup l /\ build l = Some t
    /\ (1.44 * log2R (INR (length l) + 2) - 1
        < IZR (edge_height (root t)))%R.
Proof.
  destruct sparse_tree_Z as (l & t & Hnd & Hb & Hlev & Hpow).
  exists l, t. split; [exact Hnd|]. split; [exact Hb|].
  unfold edge_height. rewrite Hlev.
  change 36 with (Z.of_nat 36) in Hpow.
  change (25 * 1124) with (Z.of_nat 25 * Z.of_nat 1124) in Hpow.
  assert (Hx : 0 < Z.of_nat (length l) + 2) by (clear; lia).
  assert (Hq : (0 < 25)%nat) by (clear; lia).
  apply (log2R_lt_of_pow _ _ _ _ Hx Hq) in Hpow.
  rewrite plus_IZR, <- INR_IZR_INZ in Hpow.
  rewrite !INR_IZR_INZ in Hpow.
  change (Z.of_nat 36) with 36 in Hpow. change (Z.of_nat 25) with 25 in Hpow.
  change (Z.of_nat 1124) with 1124 in Hpow.
  rewrite <- INR_IZR_INZ in Hpow.
  change (1124 - 1) with 1123. lra.
Qed.

(** A subtree with [k] levels or more has at least [Nmin k] nodes, the
    number of nodes of the sparsest AVL tree with [k] levels. *)
Lemma avl_count_Nmin (t : tree) :
  shape t ->
  forall k : nat, Z.of_nat k <= _get_height t -> Nmin k <= count t.
Proof.
  induction t as [|d l IHl r IHr p _ h]; intros Hs k Hk.
  - simpl in Hk. assert (k = O) by lia. subst k. reflexivity.
  - destruct Hs as (Hh & Hb & _ & Hl & Hr).
    specialize (IHl Hl). specialize (IHr Hr).
    pose proof (count_nonneg l). pose proof (count_nonneg r).
    simpl in Hk. simpl count.
    destruct k as [|[|k]].
    + change (Nmin 0) with 0. lia.
    + change (Nmin 1) with 1. lia.
    + rewrite Nmin_SS. rewrite !Nat2Z.inj_succ in Hk.
      destruct (Z_le_gt_dec (_get_height r) (_get_height l)) as [Hc|Hc].
      * assert (H1 := IHl (S k)). assert (H2 := IHr k).
        rewrite Nat2Z.inj_succ in H1. lia.
      * assert (H1 := IHl k). assert (H2 := IHr (S k)).
        rewrite Nat2Z.inj_succ in H2. lia.
Qed.

(** Up to 91 levels the sparsest tree obeys the bound with the constant
    1.44 = 36/25, and a tree with 92 levels holds 2^64 keys or more.  The
    table bounds the 36th power from below by the integer logarithm of the
    12th power. *)
Lemma Nmin_144_table :
  forallb (fun h => 25 * Z.of_nat h <=? 3 * Z.log2 ((Nmin h + 2) ^ 12)) (seq 0 92)
  = true.
Proof. vm_compute. reflexivity. Qed.

Lemma Nmin_144 (h : nat) :
  (h < 92)%nat -> 2 ^ (25 * Z.of_nat h) <= (Nmin h + 2) ^ 36.
Proof.
  intros Hlt.
  pose proof (proj1 (forallb_forall _ _) Nmin_144_table h) as HT.
  cbv beta in HT.
  assert (Hin : In h (seq 0 92)) by (apply in_seq; clear - Hlt; lia).
  specialize (HT Hin). apply Z.leb_le in HT.
  pose proof (proj1 (Nmin_nonneg h)) as Hn.
  assert (Hy : 0 < (Nmin h + 2) ^ 12) by (apply Z.pow_pos_nonneg; clear - Hn; lia).
  replace ((Nmin h + 2) ^ 36) with (((Nmin h + 2) ^ 12) ^ 3)
    by (rewrite <- Z.pow_mul_r by (clear; lia); reflexivity).
  revert HT Hy. generalize ((Nmin h + 2) ^ 12). intros y HT Hy.
  pose proof (Z.log2_spec y Hy) as [Hlo _].
  pose proof (Z.log2_nonneg y) as Hl0.
  eapply Z.le_trans; [apply (Z.pow_le_mono_r 2 _ (3 * Z.log2 y)); [clear; lia|exact HT]|].
  replace (2 ^ (3 * Z.log2 y)) with ((2 ^ Z.log2 y) ^ 3)
    by (rewrite <- Z.pow_mul_r by (clear - Hl0; lia); f_equal; clear; lia).
  apply Z.pow_le_mono_l. split; [apply Z.pow_nonneg; clear; lia|exact Hlo].
Qed.

Lemma Nmin_92 : 2 ^ 64 <= Nmin 92.
Proof. apply Z.leb_le. vm_compute. reflexivity. Qed.

(** In integers, below 2^64 keys: [levels <= 1.44 * log2 (count + 2)]. *)
Lemma avl_height_bound_144_Z (t : tree) :
  shape t -> count t < 2 ^ 64 ->
  2 ^ (25 * _get_height t) <= (count t + 2) ^ 36.
Proof.
  intros Hs Hc. pose proof (shape_height_nonneg _ Hs) as Hh.
  pose proof (count_nonneg t) as Hc0.
  pose proof (avl_count_Nmin t Hs) as HN.
  assert (Hlt : (Z.to_nat (_get_height t) < 92)%nat).
  { destruct (Nat.lt_ge_cases (Z.to_nat (_get_height t)) 92) as [Hlt|Hge]; [exact Hlt|].
    exfalso. specialize (HN 92%nat). pose proof Nmin_92 as H92.
    assert (Z.of_nat 92 <= _get_height t) by (clear - Hge Hh; lia).
    specialize (HN H). clear - HN H92 Hc. revert HN H92 Hc.
    generalize (Nmin 92) (2 ^ 64). intros; lia. }
  specialize (HN (Z.to_nat (_get_height t))).
  rewrite Z2Nat.id in HN by exact Hh. specialize (HN (Z.le_refl _)).
  pose proof (Nmin_144 _ Hlt) as HT. rewrite Z2Nat.id in HT by exact Hh.
  eapply Z.le_trans; [exact HT|].
  apply Z.pow_le_mono_l. pose proof (proj1 (Nmin_nonneg (Z.to_nat (_get_height t)))).
  clear - H HN. lia.
Qed.

(** Below 2^64 keys the tree that [insert] builds does obey the bound with
    the constant 1.44, in the height counted in edges. *)
Lemma avl_height_bound_144 (l : list Z) :
  NoDup l -> Z.of_nat (length l) < 2 ^ 64 ->
  exists t,
    build l = Some t
    /\ (IZR (edge_height (root t))
        <= 1.44 * log2R (INR (length l) + 2) - 1)%R.
Proof.
  intros Hnd Hlen. destruct (build_distinct l Hnd) as (t & Hb & [Hs _] & Hperm).
  exists t. split; [exact Hb|].
  apply Permutation_length in Hperm.
  unfold inorder_traversal in Hperm. fold (keys (root t)) in Hperm.
  pose proof (count_keys (root t)) as Hc. rewrite Hperm in Hc.
  pose proof (shape_height_nonneg _ Hs) as Hh.
  assert (Hx : 0 < Z.of_nat (length l) + 2) by (clear; lia).
  assert (Hq : (0 < 25)%nat) by (clear; lia).
  rewrite <- Hc in Hlen.
  pose proof (avl_height_bound_144_Z _ Hs Hlen) as HZ.
  rewrite Hc in HZ. clear Hlen.
  unfold edge_height. rewrite <- (shape_levels _ Hs).
  assert (HZ' : 2 ^ (Z.of_nat 25 * Z.of_nat (Z.to_nat (_get_height (root t))))
                <= (Z.of_nat (length l) + 2) ^ Z.of_nat 36).
  { rewrite Z2Nat.id by exact Hh. exact HZ. }
  clear HZ. apply (log2R_ge_of_pow _ _ _ _ Hx Hq) in HZ'.
  rewrite plus_IZR, <- INR_IZR_INZ in HZ'.
  rewrite (INR_IZR_INZ (Z.to_nat _)), (INR_IZR_INZ 36), (INR_IZR_INZ 25) in HZ'.
  rewrite Z2Nat.id in HZ' by exact Hh.
  change (Z.of_nat 36) with 36 in HZ'. change (Z.of_nat 25) with 25 in HZ'.
  rewrite minus_IZR. lra.
Qed.

(** * The properties of the specification *)

(** C1. For every finite sequence [ops] of [insert] and [delete] calls on
    the empty [AVLTree] and every [k], the first [k] calls return, and in
    the tree they leave every node satisfies the BST ordering (keys of the
    left subtree strictly smaller, keys of the right subtree strictly
    greater), the AVL balance on the heights of its two subtrees, and has a
    cached [height] equal to the maximum of the cached heights of its
    children ([0] for an absent child) plus 1. *)
Theorem avl_invariants_after_each_call (ops : list op) (k : nat) :
  exists t,
    run (firstn k ops) empty = Some t
    /\ bst (root t) /\ balanced (root t) /\ heights_ok (root t).
Proof.
  destruct (run_avl (firstn k ops) empty avl_empty) as (t & E & Hsh & Hso).
  exists t. split; [exact E|]. split; [|split].
  - now apply bst_sorted.
  - now apply shape_balanced.
  - now apply shape_heights_ok.
Qed.

(** C2 (evaluation at the failing input).  [delete] on a key stored in a
    node with two children: the call returns [True] and removes the key,
    and [size] goes from 3 to 1 where two keys are left. *)
Theorem delete_two_children_size :
  exists t t',
    build [2; 1; 3] = Some t
    /\ size t = 3 /\ inorder_traversal t = [1; 2; 3]
    /\ delete t 2 = Some (true, t')
    /\ inorder_traversal t' = [1; 3] /\ size t' = 1.
Proof.
  eexists. eexists. split; [reflexivity|]. split; [reflexivity|].
  split; [reflexivity|]. split; [reflexivity|]. split; reflexivity.
Qed.

(** C3. Inserting pairwise distinct keys in any order into the empty tree
    returns, and the in-order traversal of the result is strictly
    increasing and is a rearrangement of the keys inserted: it is their
    ascending sequence, each key once. *)
Theorem inorder_of_inserted_keys (l : list Z) :
  NoDup l ->
  exists t,
    build l = Some t
    /\ StronglySorted Z.lt (inorder_traversal t)
    /\ Permutation (inorder_traversal t) l.
Proof.
  intros Hnd. destruct (build_distinct l Hnd) as (t & E & [_ Hso] & Hperm).
  exists t. split; [exact E|]. split; [exact Hso|exact Hperm].
Qed.

Lemma inorder_of_inserted_keys_witness :
  exists t,
    build [10; 20; 30; 40; 50; 25] = Some t
    /\ StronglySorted Z.lt (inorder_traversal t)
    /\ Permutation (inorder_traversal t) [10; 20; 30; 40; 50; 25].
Proof.
  apply (inorder_of_inserted_keys [10; 20; 30; 40; 50; 25]).
  repeat constructor; simpl; intuition lia.
Defined.

(** C4. On a tree obtained by [insert] and [delete] calls, [insert] of a
    key already stored returns and leaves the tree as it was: same nodes,
    same cached heights, same [size], hence the same traversals. *)
Theorem insert_present_is_noop (t : AVLTree) (k : Z) :
  reachable t -> search t k = true -> insert t k = Some t.
Proof.
  intros Hr Hk. apply reachable_avl in Hr.
  destruct (insert_spec t k Hr) as (t' & E & _ & _ & Hsame).
  rewrite E. f_equal. apply Hsame. now apply search_true_in.
Qed.

Lemma insert_present_is_noop_witness :
  insert (mkTree (Node 2 (Node 1 Nil Nil Nil 1) (Node 3 Nil Nil Nil 1) Nil 2) 3) 3
  = Some (mkTree (Node 2 (Node 1 Nil Nil Nil 1) (Node 3 Nil Nil Nil 1) Nil 2) 3).
Proof.
  apply insert_present_is_noop.
  - exists [Insert 1; Insert 2; Insert 3]. reflexivity.
  - reflexivity.
Defined.

(** C5 (evaluation at the failing input).  After [insert(1)], [insert(2)]
    the tree holds 1 at the root and 2 in its right child: its height is 1,
    within the bound [1.44 * log2 (2 + 2) - 1 = 1.88].  But the root has no
    left child, [get_height] replaces the [None] it is called on by the
    root again, and [get_height()] never returns, whatever the recursion
    depth allowed. *)
Theorem get_height_after_two_inserts :
  exists t,
    build [1; 2] = Some t
    /\ root t = Node 1 Nil (Node 2 Nil Nil Nil 1) Nil 2
    /\ inorder_traversal t = [1; 2]
    /\ edge_height (root t) = 1
    /\ forall fuel, get_height fuel t = None.
Proof.
  eexists. split; [reflexivity|]. split; [reflexivity|].
  split; [reflexivity|]. split; [reflexivity|].
  apply get_height_spec. reflexivity.
Qed.

(** C6. On a tree obtained by [insert] and [delete] calls, [find_min] and
    [find_max] return [None] when no key is stored; otherwise they return
    the first and the last key of the in-order traversal (the key of the
    leftmost and of the rightmost node), which are the smallest and the
    largest key stored.  Both only read the tree: in the embedding they
    are functions of the tree that return no new tree. *)
Theorem find_min_max_spec (t : AVLTree) :
  reachable t ->
  (inorder_traversal t = [] ->
   find_min t = Some None /\ find_max t = Some None)
  /\ (inorder_traversal t <> [] ->
      exists mn mx rest front,
        find_min t = Some (Some mn) /\ find_max t = Some (Some mx)
        /\ inorder_traversal t = mn :: rest
        /\ inorder_traversal t = front ++ [mx]
        /\ Forall (fun k => mn <= k <= mx) (inorder_traversal t)).
Proof.
  intros Hr. apply reachable_avl in Hr. destruct Hr as [_ Hso].
  unfold find_min, find_max, inorder_traversal. fold (keys (root t)).
  destruct (root t) as [|d l r p h] eqn:Er.
  - split; [auto|]. intros H. now elim H.
  - split.
    + rewrite keys_node. intros H. now destruct (keys l).
    + intros _.
      destruct (find_min_node_spec (Node d l r p h)) as (mn & mr & mp & mh & rest & Emin & Kmin);
        [discriminate|].
      destruct (find_max_in_subtree_spec (Node d l r p h)) as (mx & front & Emax & Kmax);
        [discriminate|].
      exists mn, mx, rest, front. rewrite Emin, Emax. simpl.
      split; [reflexivity|]. split; [reflexivity|].
      split; [exact Kmin|]. split; [exact Kmax|].
      apply Forall_forall. intros y Hy. split.
      * rewrite Kmin in Hy, Hso. apply sorted_cons_inv in Hso.
        destruct Hso as [_ Hf]. destruct Hy as [->|Hy]; [lia|].
        pose proof (Forall_lt_in _ _ _ Hf Hy). simpl in *. lia.
      * rewrite Kmax in Hy, Hso. apply sorted_app_cons in Hso.
        destruct Hso as (_ & _ & Hf & _). apply in_app_iff in Hy.
        destruct Hy as [Hy|[->|[]]]; [|lia].
        pose proof (Forall_lt_in _ _ _ Hf Hy). simpl in *. lia.
Qed.

Lemma find_min_max_spec_witness :
  let t := mkTree (Node 2 (Node 1 Nil Nil Nil 1) (Node 3 Nil Nil Nil 1) Nil 2) 3 in
  (inorder_traversal t = [] ->
   find_min t = Some None /\ find_max t = Some None)
  /\ (inorder_traversal t <> [] ->
      exists mn mx rest front,
        find_min t = Some (Some mn) /\ find_max t = Some (Some mx)
        /\ inorder_traversal t = mn :: rest
        /\ inorder_traversal t = front ++ [mx]
        /\ Forall (fun k => mn <= k <= mx) (inorder_traversal t)).
Proof.
  intros t. apply (find_min_max_spec t).
  exists [Insert 1; Insert 2; Insert 3]. reflexivity.
Defined.

(** C7. On a tree obtained by [insert] and [delete] calls, [delete] of a
    key that is not stored (in particular any key when the tree is empty)
    returns [False] and leaves the tree as it was: same nodes, same cached
    heights, same [size], hence the same traversals. *)
Theorem delete_absent_is_noop (t : AVLTree) (k : Z) :
  reachable t -> search t k = false -> delete t k = Some (false, t).
Proof.
  intros Hr Hk. apply reachable_avl in Hr.
  destruct (delete_spec t k Hr) as (b & t' & E & _ & _ & Hb & Hsame & _).
  apply (search_false_not_in t k Hr) in Hk.
  rewrite E, (Hsame Hk). destruct b; [|reflexivity].
  elim Hk. now apply Hb.
Qed.

Lemma delete_absent_is_noop_witness :
  delete (mkTree (Node 2 (Node 1 Nil Nil Nil 1) (Node 3 Nil Nil Nil 1) Nil 2) 3) 7
  = Some (false, mkTree (Node 2 (Node 1 Nil Nil Nil 1) (Node 3 Nil Nil Nil 1) Nil 2) 3).
Proof.
  apply delete_absent_is_noop.
  - exists [Insert 1; Insert 2; Insert 3]. reflexivity.
  - reflexivity.
Defined.

(** C8 (counterexample).  [is_balanced] reads the cached heights: on
    [stale_chain] it returns [True] although the left subtree of the root
    has two levels and the right one none. *)
Lemma is_balanced_reads_cached_heights :
  is_balanced stale_chain = true /\ ~ balanced (root stale_chain).
Proof.
  split; [reflexivity|]. simpl. intros (H & _). vm_compute in H. now apply H.
Qed.

(** C8 (as amended).  [is_balanced] returns [True] exactly when at every
    node the cached heights of the two children differ by at most 1; on a
    tree whose cached heights are up to date this is the AVL balance on the
    heights recomputed from the structure. *)
Theorem is_balanced_spec (t : AVLTree) :
  (is_balanced t = true <-> cached_balanced (root t))
  /\ (heights_ok (root t) -> (is_balanced t = true <-> balanced (root t))).
Proof.
  unfold is_balanced. split.
  - apply is_balanced_helper_cached.
  - intros H. rewrite is_balanced_helper_cached. now apply heights_ok_cached_balanced.
Qed.

Lemma is_balanced_spec_witness :
  (is_balanced (mkTree (Node 2 (Node 1 Nil Nil Nil 1) Nil Nil 2) 2) = true
   <-> cached_balanced (Node 2 (Node 1 Nil Nil Nil 1) Nil Nil 2))
  /\ (is_balanced (mkTree (Node 2 (Node 1 Nil Nil Nil 1) Nil Nil 2) 2) = true
      <-> balanced (Node 2 (Node 1 Nil Nil Nil 1) Nil Nil 2)).
Proof.
  destruct (is_balanced_spec (mkTree (Node 2 (Node 1 Nil Nil Nil 1) Nil Nil 2) 2))
    as [H1 H2].
  split; [exact H1|]. apply H2. simpl. repeat split; reflexivity.
Defined.

(** C9 (evaluation at the failing input).  In the tree with keys 1, 2, 3
    (root 2), [find_successor(1)] and [find_predecessor(3)] return [None]
    although 2 is stored: the nodes of an AVL tree carry no parent
    reference. *)
Theorem successor_of_leaf_is_none :
  exists t,
    build [2; 1; 3] = Some t
    /\ inorder_traversal t = [1; 2; 3]
    /\ find_successor t 1 = Some None
    /\ find_predecessor t 3 = Some None.
Proof.
  eexists. split; [reflexivity|]. split; [reflexivity|]. split; reflexivity.
Qed.

(** C10. The rotations fail exactly on a node without the child they
    dereference, and on a tree obtained by [insert] and [delete] calls
    neither [insert] nor [delete] fails: no rotation they call meets a
    missing child, and no access [node.left.data], [node.right.data] does. *)
Theorem rotations_find_their_child (t : AVLTree) (k : Z) :
  reachable t ->
  (forall y, _rotate_right y = None <->
             match y with Node _ (Node _ _ _ _ _) _ _ _ => False | _ => True end)
  /\ (forall x, _rotate_left x = None <->
                match x with Node _ _ (Node _ _ _ _ _) _ _ => False | _ => True end)
  /\ (exists t', insert t k = Some t')
  /\ (exists b t', delete t k = Some (b, t')).
Proof.
  intros Hr. apply reachable_avl in Hr.
  split; [exact rotate_right_fails_iff|]. split; [exact rotate_left_fails_iff|].
  split.
  - destruct (insert_spec t k Hr) as (t' & E & _). eauto.
  - destruct (delete_spec t k Hr) as (b & t' & E & _). eauto.
Qed.

Lemma rotations_find_their_child_witness :
  exists t', insert (mkTree (Node 1 Nil (Node 2 Nil Nil Nil 1) Nil 2) 2) 3 = Some t'.
Proof.
  refine (proj1 (proj2 (proj2 (rotations_find_their_child
            (mkTree (Node 1 Nil (Node 2 Nil Nil Nil 1) Nil 2) 2) 3 _)))).
  exists [Insert 1; Insert 2]. reflexivity.
Defined.

(** * Further properties of the code *)

(** ** Depth-first traversals *)

Lemma preorder_helper_app (t : tree) (acc : list Z) :
  _preorder_helper t acc = acc ++ _preorder_helper t [].
Proof.
  revert acc. induction t as [|d l IHl r IHr p _ h]; intros acc; simpl.
  - now rewrite app_nil_r.
  - rewrite (IHr (_preorder_helper l (acc ++ [d]))), (IHr (_preorder_helper l [d])).
    rewrite (IHl (acc ++ [d])), (IHl [d]). now rewrite <- !app_assoc.
Qed.

Lemma preorder_node d l r p h :
  _preorder_helper (Node d l r p h) [] =
  d :: _preorder_helper l [] ++ _preorder_helper r [].
Proof.
  simpl. rewrite preorder_helper_app, (preorder_helper_app l [d]).
  now rewrite <- app_assoc.
Qed.

Lemma postorder_helper_app (t : tree) (acc : list Z) :
  _postorder_helper t acc = acc ++ _postorder_helper t [].
Proof.
  revert acc. induction t as [|d l IHl r IHr p _ h]; intros acc; simpl.
  - now rewrite app_nil_r.
  - rewrite (IHr (_postorder_helper l acc)), (IHr (_postorder_helper l [])).
    rewrite (IHl acc). now rewrite <- !app_assoc.
Qed.

Lemma postorder_node d l r p h :
  _postorder_helper (Node d l r p h) [] =
  _postorder_helper l [] ++ _postorder_helper r [] ++ [d].
Proof.
  simpl. rewrite postorder_helper_app. now rewrite <- app_assoc.
Qed.

Lemma preorder_perm (t : tree) : Permutation (_preorder_helper t []) (keys t).
Proof.
  induction t as [|d l IHl r IHr p _ h]; [constructor|].
  rewrite preorder_node, keys_node.
  apply Permutation_cons_app. now apply Permutation_app.
Qed.

Lemma postorder_perm (t : tree) : Permutation (_postorder_helper t []) (keys t).
Proof.
  induction t as [|d l IHl r IHr p _ h]; [constructor|].
  rewrite postorder_node, keys_node.
  rewrite app_assoc. etransitivity; [apply Permutation_app_comm|]. simpl.
  apply Permutation_cons_app. now apply Permutation_app.
Qed.

(** X10. For every tree, [preorder_traversal] and [postorder_traversal]
    list the keys that [inorder_traversal] lists, each as often, in another
    order: the key of the root comes first in the pre-order and last in the
    post-order, followed (preceded) by the traversals of the left and then
    the right subtree. *)
Theorem depth_first_traversals (self : AVLTree) :
  Permutation (preorder_traversal self) (inorder_traversal self)
  /\ Permutation (postorder_traversal self) (inorder_traversal self)
  /\ match root self with
     | Nil => preorder_traversal self = [] /\ postorder_traversal self = []
     | Node d l r _ _ =>
       preorder_traversal self
       = d :: _preorder_helper l [] ++ _preorder_helper r []
       /\ postorder_traversal self
          = _postorder_helper l [] ++ _postorder_helper r [] ++ [d]
     end.
Proof.
  unfold preorder_traversal, postorder_traversal, inorder_traversal.
  fold (keys (root self)).
  split; [apply preorder_perm|]. split; [apply postorder_perm|].
  destruct (root self) as [|d l r p h]; [split; reflexivity|].
  split; [apply preorder_node|apply postorder_node].
Qed.

(** ** Breadth-first loops *)

Lemma enqueue_children (queue : list tree) (d : Z) (l r p : tree) (h : Z) :
  enqueue (enqueue queue l) r = queue ++ children [Node d l r p h].
Proof.
  unfold children. simpl. rewrite app_nil_r.
  destruct l, r; simpl; rewrite ?app_nil_r, <- ?app_assoc; reflexivity.
Qed.

Lemma children_app (q1 q2 : list tree) :
  children (q1 ++ q2) = children q1 ++ children q2.
Proof. unfold children. apply flat_map_app. Qed.

Lemma children_cons (t : tree) (q : list tree) :
  children (t :: q) = children [t] ++ children q.
Proof. apply (children_app [t] q). Qed.

Lemma root_keys_cons d l r p h (q : list tree) :
  root_keys (Node d l r p h :: q) = d :: root_keys q.
Proof. reflexivity. Qed.

Lemma nodes_only_children (q : list tree) : nodes_only (children q).
Proof.
  unfold nodes_only, children. apply Forall_flat_map.
  apply Forall_forall. intros t _. destruct t as [|d [|] [|] p h]; simpl;
    repeat constructor; discriminate.
Qed.

(** The loop outputs the keys of the nodes at the front of the queue and
    goes on with their children at the back. *)
Lemma level_order_loop_prefix (q cs : list tree) (result : list Z) (fuel : nat) :
  nodes_only q ->
  level_order_loop (length q + fuel) (q ++ cs) result
  = level_order_loop fuel (cs ++ children q) (result ++ root_keys q).
Proof.
  revert cs result. induction q as [|c q IH]; intros cs result Hq.
  - simpl. now rewrite !app_nil_r.
  - inversion Hq as [|? ? Hc Hq']; subst.
    destruct c as [|d l r p h]; [now elim Hc|].
    simpl length. simpl app. cbn [Nat.add level_order_loop].
    rewrite (enqueue_children _ d l r p h), <- app_assoc, (IH _ _ Hq').
    f_equal.
    + unfold children at 1. simpl flat_map. now rewrite app_nil_r, <- app_assoc.
    + now rewrite <- app_assoc.
Qed.

Lemma forest_count_app (a b : list tree) :
  forest_count (a ++ b) = (forest_count a + forest_count b)%nat.
Proof. induction a as [|x a IH]; simpl; [reflexivity|]. rewrite IH. lia. Qed.

Lemma forest_count_children1 d l r p h :
  forest_count (children [Node d l r p h])
  = (Z.to_nat (count l) + Z.to_nat (count r))%nat.
Proof.
  unfold children. simpl flat_map. rewrite app_nil_r.
  destruct l, r; simpl; lia.
Qed.

Lemma forest_count_children (q : list tree) :
  nodes_only q ->
  forest_count q = (length q + forest_count (children q))%nat.
Proof.
  induction 1 as [|t q Ht Hq IH]; [reflexivity|].
  destruct t as [|d l r p h]; [now elim Ht|].
  rewrite children_cons, forest_count_app, forest_count_children1.
  change (forest_count (Node d l r p h :: q))
    with (Z.to_nat (count l + count r + 1) + forest_count q)%nat.
  rewrite IH. pose proof (count_nonneg l). pose proof (count_nonneg r).
  simpl length. lia.
Qed.

Lemma forest_depth_app (a b : list tree) :
  forest_depth (a ++ b) = Nat.max (forest_depth a) (forest_depth b).
Proof. induction a as [|x a IH]; simpl; [reflexivity|]. rewrite IH. lia. Qed.

Lemma forest_depth_children1 (t : tree) :
  (forest_depth (children [t]) <= Z.to_nat (levels t) - 1)%nat.
Proof.
  destruct t as [|d l r p h]; [simpl; lia|].
  pose proof (levels_nonneg l). pose proof (levels_nonneg r).
  unfold children. simpl flat_map. rewrite app_nil_r.
  change (levels (Node d l r p h)) with (Z.max (levels l) (levels r) + 1).
  destruct l as [|ld ll lr lp lh], r as [|rd rl rr rp rh];
    cbn [enqueue app forest_depth]; lia.
Qed.

Lemma forest_depth_children (q : list tree) :
  (forest_depth (children q) <= forest_depth q - 1)%nat.
Proof.
  induction q as [|t q IH]; [simpl; lia|].
  rewrite children_cons, forest_depth_app.
  pose proof (forest_depth_children1 t).
  change (forest_depth (t :: q))
    with (Nat.max (Z.to_nat (levels t)) (forest_depth q)).
  lia.
Qed.

Lemma forest_depth_zero (q : list tree) :
  nodes_only q -> forest_depth q = O -> q = [].
Proof.
  intros Hq Hd. destruct q as [|t q]; [reflexivity|].
  inversion Hq as [|? ? Ht _]; subst.
  destruct t as [|d l r p h]; [now elim Ht|].
  simpl in Hd. pose proof (levels_nonneg l). pose proof (levels_nonneg r). lia.
Qed.

Lemma level_order_loop_levels (n : nat) :
  forall (q : list tree) (result : list Z) (fuel : nat),
    nodes_only q -> (forest_depth q <= n)%nat -> (forest_count q <= fuel)%nat ->
    level_order_loop fuel q result = Some (result ++ by_levels n q).
Proof.
  induction n as [|n IH]; intros q result fuel Hq Hd Hf.
  - rewrite (forest_depth_zero q Hq) by lia. destruct fuel; simpl; now rewrite app_nil_r.
  - rewrite (forest_count_children q Hq) in Hf.
    replace fuel with (length q + (fuel - length q))%nat by lia.
    pose proof (level_order_loop_prefix q [] result (fuel - length q) Hq) as Hp.
    rewrite app_nil_r in Hp. rewrite Hp. simpl app.
    rewrite IH.
    + simpl. now rewrite <- app_assoc.
    + apply nodes_only_children.
    + pose proof (forest_depth_children q). lia.
    + lia.
Qed.

Lemma children1_keys_perm d l r p h :
  Permutation (flat_map keys (children [Node d l r p h])) (keys l ++ keys r).
Proof.
  unfold children. simpl flat_map. rewrite app_nil_r.
  destruct l, r; simpl; rewrite ?app_nil_r; reflexivity.
Qed.

Lemma roots_children_perm (q : list tree) :
  Permutation (root_keys q ++ flat_map keys (children q)) (flat_map keys q).
Proof.
  induction q as [|t q IHq]; [constructor|].
  rewrite children_cons, flat_map_app. destruct t as [|d l r p h].
  - exact IHq.
  - change (root_keys (Node d l r p h :: q)) with (d :: root_keys q).
    change (flat_map keys (Node d l r p h :: q))
      with (keys (Node d l r p h) ++ flat_map keys q).
    rewrite keys_node, <- app_assoc. cbn [app].
    apply Permutation_cons_app.
    etransitivity; [apply Permutation_app_swap_app|].
    rewrite children1_keys_perm, <- app_assoc.
    do 2 apply Permutation_app_head. exact IHq.
Qed.

Lemma forest_keys_perm (n : nat) :
  forall q, nodes_only q -> (forest_depth q <= n)%nat ->
            Permutation (by_levels n q) (flat_map keys q).
Proof.
  induction n as [|n IH]; intros q Hq Hd.
  - now rewrite (forest_depth_zero q Hq) by lia.
  - simpl. rewrite (IH (children q)).
    + apply roots_children_perm.
    + apply nodes_only_children.
    + pose proof (forest_depth_children q). lia.
Qed.

(** X11. [level_order_traversal] returns as soon as [fuel] covers one
    iteration per node, and its result lists the keys level by level (the
    root, then its children left to right, then theirs): a rearrangement of
    the in-order traversal. *)
Theorem level_order_by_levels (self : AVLTree) (fuel : nat) :
  (Z.to_nat (count (root self)) <= fuel)%nat ->
  level_order_traversal fuel self
  = Some (by_levels (Z.to_nat (levels (root self))) [root self])
  /\ Permutation (by_levels (Z.to_nat (levels (root self))) [root self])
                 (inorder_traversal self).
Proof.
  intros Hf. unfold level_order_traversal, inorder_traversal.
  fold (keys (root self)).
  destruct (root self) as [|d l r p h] eqn:E.
  - split; [reflexivity|]. simpl. constructor.
  - assert (Hq : nodes_only [Node d l r p h]) by (repeat constructor; discriminate).
    split.
    + apply (level_order_loop_levels _ [Node d l r p h] []);
        [exact Hq|simpl; lia|].
      cbn [forest_count]. lia.
    + rewrite (forest_keys_perm _ _ Hq) by (simpl; lia).
      simpl. now rewrite app_nil_r.
Qed.

Lemma level_order_by_levels_witness :
  level_order_traversal 3
    (mkTree (Node 2 (Node 1 Nil Nil Nil 1) (Node 3 Nil Nil Nil 1) Nil 2) 3)
  = Some [2; 1; 3].
Proof.
  refine (proj1 (level_order_by_levels
    (mkTree (Node 2 (Node 1 Nil Nil Nil 1) (Node 3 Nil Nil Nil 1) Nil 2) 3) 3 _)).
  simpl. lia.
Defined.

Lemma find_node_loop_prefix (k : Z) (q cs : list tree) (fuel : nat) :
  nodes_only q ->
  _find_node_loop (length q + fuel) (q ++ cs) k
  = match first_with_key k q with
    | Some c => Some c
    | None => _find_node_loop fuel (cs ++ children q) k
    end.
Proof.
  revert cs. induction q as [|c q IH]; intros cs Hq.
  - simpl. now rewrite !app_nil_r.
  - inversion Hq as [|? ? Hc Hq']; subst.
    destruct c as [|d l r p h]; [now elim Hc|].
    cbn [length app Nat.add _find_node_loop first_with_key find].
    destruct (d =? k); [reflexivity|].
    rewrite (enqueue_children _ d l r p h), <- app_assoc, (IH _ Hq').
    fold (first_with_key k q). destruct (first_with_key k q); [reflexivity|].
    f_equal. unfold children at 1. simpl flat_map.
    now rewrite app_nil_r, <- app_assoc.
Qed.

Lemma node_of_self d l r p h : node_of (Node d l r p h) (Node d l r p h).
Proof. simpl. now left. Qed.

Lemma node_of_children (s t : tree) :
  Exists (node_of s) (children [t]) -> node_of s t.
Proof.
  destruct t as [|d l r p h]; [intros H; inversion H|].
  unfold children. simpl flat_map. rewrite app_nil_r. intros H.
  destruct l as [|ld ll lr lp lh], r as [|rd rl rr rp rh];
    cbn [enqueue app] in H; cbn [node_of]; right.
  - inversion H.
  - inversion H as [? ? Ha|? ? Ha]; [now right|inversion Ha].
  - inversion H as [? ? Ha|? ? Ha]; [now left|inversion Ha].
  - inversion H as [? ? Ha|? ? Ha]; [now left|].
    inversion Ha as [? ? Hb|? ? Hb]; [now right|inversion Hb].
Qed.

Lemma node_of_forest_children (s : tree) (q : list tree) :
  Exists (node_of s) (children q) -> Exists (node_of s) q.
Proof.
  induction q as [|t q IH]; [intros H; inversion H|].
  rewrite children_cons, Exists_app. intros [H|H].
  - left. now apply node_of_children.
  - right. now apply IH.
Qed.

Lemma first_with_key_none (k : Z) (q : list tree) :
  first_with_key k q = None -> ~ In k (root_keys q).
Proof.
  induction q as [|t q IH]; [auto|].
  unfold first_with_key. simpl find. destruct t as [|d l r p h].
  - exact IH.
  - destruct (Z.eqb_spec d k); [discriminate|].
    intros H. change (root_keys (Node d l r p h :: q)) with (d :: root_keys q).
    intros [Hd|Hin]; [contradiction|]. now apply IH.
Qed.

Lemma first_with_key_some (k : Z) (q : list tree) (c : tree) :
  first_with_key k q = Some c ->
  data_of c = Some k /\ Exists (node_of c) q.
Proof.
  unfold first_with_key. intros H. apply find_some in H. destruct H as [Hin Ht].
  destruct c as [|d l r p h]; [discriminate|].
  apply Z.eqb_eq in Ht. subst d. split; [reflexivity|].
  apply Exists_exists. exists (Node k l r p h). split; [assumption|apply node_of_self].
Qed.

Lemma find_node_loop_spec (k : Z) (n : nat) :
  forall (q : list tree) (fuel : nat),
    nodes_only q -> (forest_depth q <= n)%nat -> (forest_count q <= fuel)%nat ->
    exists s,
      _find_node_loop fuel q k = Some s
      /\ ((s = Nil /\ ~ In k (flat_map keys q))
          \/ (data_of s = Some k /\ Exists (node_of s) q)).
Proof.
  induction n as [|n IH]; intros q fuel Hq Hd Hf.
  - rewrite (forest_depth_zero q Hq) by lia. exists Nil.
    split; [destruct fuel; reflexivity|]. left. split; [reflexivity|auto].
  - rewrite (forest_count_children q Hq) in Hf.
    replace fuel with (length q + (fuel - length q))%nat by lia.
    pose proof (find_node_loop_prefix k q [] (fuel - length q) Hq) as Hp.
    rewrite app_nil_r in Hp. rewrite Hp. simpl app.
    destruct (first_with_key k q) as [c|] eqn:Ef.
    + exists c. split; [reflexivity|]. right. now apply first_with_key_some.
    + destruct (IH (children q) (fuel - length q)%nat) as (s & Es & Hs).
      * apply nodes_only_children.
      * pose proof (forest_depth_children q). lia.
      * lia.
      * exists s. split; [exact Es|]. destruct Hs as [[-> Hn]|[Hd' Hex]].
        -- left. split; [reflexivity|]. intros Hin.
           apply (Permutation_in _ (Permutation_sym (roots_children_perm q))) in Hin.
           apply in_app_iff in Hin. destruct Hin as [Hin|Hin]; [|contradiction].
           now apply (first_with_key_none k q Ef).
        -- right. split; [assumption|]. now apply node_of_forest_children.
Qed.

Lemma node_of_key (s t : tree) (k : Z) :
  node_of s t -> data_of s = Some k -> In k (keys t).
Proof.
  induction t as [|d l IHl r IHr p _ h]; [contradiction|].
  rewrite keys_node, in_app_iff. simpl.
  intros [->|[H|H]] Hk.
  - simpl in Hk. injection Hk as ->. auto.
  - auto.
  - auto.
Qed.

(** In a tree without duplicate keys the node carrying [k] is the one the
    ordered descent reaches. *)
Lemma node_of_search (s t : tree) (k : Z) :
  sorted (keys t) -> node_of s t -> data_of s = Some k ->
  _search_recursive t k = s.
Proof.
  induction t as [|d l IHl r IHr p _ h]; [contradiction|].
  rewrite keys_node, sorted_app_cons. intros (Hsl & Hsr & Hfl & Hfr) Hn Hk.
  simpl in Hn. destruct Hn as [->|[Hn|Hn]].
  - simpl in Hk. injection Hk as ->. simpl. now rewrite Z.eqb_refl.
  - pose proof (Forall_lt_in _ _ _ Hfl (node_of_key _ _ _ Hn Hk)) as Hlt.
    simpl in Hlt. simpl.
    destruct (Z.eqb_spec d k); [lia|]. destruct (Z.ltb_spec k d); [|lia]. auto.
  - pose proof (Forall_lt_in _ _ _ Hfr (node_of_key _ _ _ Hn Hk)) as Hlt.
    simpl in Hlt. simpl.
    destruct (Z.eqb_spec d k); [lia|]. destruct (Z.ltb_spec k d); [lia|]. auto.
Qed.

(** X12. On a tree obtained by [insert] and [delete] calls, the
    breadth-first [_find_node] returns, once [fuel] covers one iteration per
    node, the very node the ordered descent [_search_recursive] reaches (or
    [None] when the key is not stored); hence [BinaryTree.search] and
    [BinarySearchTree.search] give the same answer. *)
Theorem find_node_agrees_with_search (t : AVLTree) (k : Z) (fuel : nat) :
  reachable t -> (Z.to_nat (count (root t)) <= fuel)%nat ->
  _find_node fuel t k = Some (_search_recursive (root t) k)
  /\ binary_tree_search fuel t k = Some (search t k).
Proof.
  intros Hr Hf. apply reachable_avl in Hr. destruct Hr as [_ Hso].
  assert (H : _find_node fuel t k = Some (_search_recursive (root t) k)).
  { unfold _find_node. destruct (root t) as [|d l r p h] eqn:E; [reflexivity|].
    destruct (find_node_loop_spec k (Z.to_nat (levels (Node d l r p h)))
                [Node d l r p h] fuel) as (s & Es & Hs).
    - repeat constructor; discriminate.
    - simpl; lia.
    - cbn [forest_count]. lia.
    - rewrite Es. f_equal. destruct Hs as [[-> Hn]|[Hd Hex]].
      + simpl flat_map in Hn. rewrite app_nil_r in Hn.
        destruct (_search_recursive (Node d l r p h) k) eqn:Es'; [reflexivity|].
        elim Hn. apply (search_in _ k Hso). rewrite Es'. discriminate.
      + inversion Hex as [? ? Hn|? ? Hn]; [|inversion Hn].
        symmetry. now apply node_of_search. }
  split; [exact H|]. unfold binary_tree_search, search. rewrite H. reflexivity.
Qed.

Lemma find_node_agrees_with_search_witness :
  _find_node 3 (mkTree (Node 2 (Node 1 Nil Nil Nil 1) (Node 3 Nil Nil Nil 1) Nil 2) 3) 3
  = Some (Node 3 Nil Nil Nil 1).
Proof.
  refine (proj1 (find_node_agrees_with_search
    (mkTree (Node 2 (Node 1 Nil Nil Nil 1) (Node 3 Nil Nil Nil 1) Nil 2) 3) 3 3 _ _)).
  - exists [Insert 1; Insert 2; Insert 3]. reflexivity.
  - simpl. lia.
Defined.

(** ** The validators *)









(** ** Membership, size and height under [insert] and [delete] *)

Lemma count_insert (t t' : tree) (x : Z) :
  sorted (keys t) -> sorted (keys t') ->
  (forall y, In y (keys t') <-> y = x \/ In y (keys t)) ->
  ~ In x (keys t) -> count t' = count t + 1.
Proof.
  intros Hs Hs' Hin Hx. rewrite !count_keys.
  assert (Hp : Permutation (keys t') (x :: keys t)).
  { apply NoDup_Permutation; [now apply sorted_NoDup| |].
    - constructor; [exact Hx|now apply sorted_NoDup].
    - intros y. rewrite Hin. simpl. intuition auto. }
  apply Permutation_length in Hp. rewrite Hp. simpl length. lia.
Qed.

Lemma count_delete (t t' : tree) (x : Z) :
  sorted (keys t) -> sorted (keys t') ->
  (forall y, In y (keys t') <-> In y (keys t) /\ y <> x) ->
  In x (keys t) -> count t' = count t - 1.
Proof.
  intros Hs Hs' Hin Hx. rewrite !count_keys.
  assert (Hp : Permutation (keys t) (x :: keys t')).
  { apply NoDup_Permutation; [now apply sorted_NoDup| |].
    - constructor; [|now apply sorted_NoDup]. rewrite Hin. tauto.
    - intros y. simpl. rewrite Hin. destruct (Z.eq_dec x y); [subst|]; intuition auto. }
  apply Permutation_length in Hp. rewrite Hp. simpl length. lia.
Qed.

Lemma insert_measure (t : AVLTree) (x : Z) :
  avl t ->
  exists t',
    insert t x = Some t' /\ avl t'
    /\ (In x (inorder_traversal t) -> t' = t)
    /\ (~ In x (inorder_traversal t) ->
        count (root t') = count (root t) + 1
        /\ size t' = match root t with Nil => 1 | Node _ _ _ _ _ => size t + 1 end)
    /\ (levels (root t') = levels (root t)
        \/ levels (root t') = levels (root t) + 1).
Proof.
  intros [Hsh Hso]. unfold insert, inorder_traversal. fold (keys (root t)).
  destruct t as [rt sz]. simpl in *.
  destruct rt as [|d l r p h].
  - eexists. split; [reflexivity|]. split; [|split; [|split]].
    + split; simpl; [repeat split; simpl; lia|repeat constructor].
    + contradiction.
    + intros _. split; reflexivity.
    + right. reflexivity.
  - destruct (insert_avl_spec (Node d l r p h) x sz Hsh)
      as (t' & s' & E & Hsh' & _ & Hh & _ & Hin & Hso' & Hnew & Hold).
    rewrite E. eexists. split; [reflexivity|]. split; [|split; [|split]].
    + split; simpl; auto.
    + intros Hx. destruct (Hold Hso Hx) as [-> ->]. reflexivity.
    + intros Hx. simpl root. simpl size. split; [|now apply Hnew].
      now apply (count_insert _ _ x); auto.
    + simpl root. rewrite <- !shape_levels by assumption. exact Hh.
Qed.

Lemma delete_measure (t : AVLTree) (x : Z) :
  avl t ->
  exists b t',
    delete t x = Some (b, t') /\ avl t'
    /\ (~ In x (inorder_traversal t) -> t' = t)
    /\ (In x (inorder_traversal t) ->
        count (root t') = count (root t) - 1
        /\ (size t' = size t - 1 \/ size t' = size t - 2))
    /\ (levels (root t') = levels (root t)
        \/ levels (root t') = levels (root t) - 1).
Proof.
  intros [Hsh Hso]. unfold delete, inorder_traversal. fold (keys (root t)).
  destruct t as [rt sz]. simpl in *.
  destruct rt as [|d l r p h].
  - exists false, (mkTree Nil sz). split; [reflexivity|]. split; [split; auto|].
    simpl. split; [auto|]. split; [contradiction|]. left; reflexivity.
  - destruct (delete_avl_spec (Node d l r p h) x sz Hsh)
      as (t' & s' & E & Hsh' & Hh & Hkeys & Habs & Hpres).
    destruct (Hkeys Hso) as [Hso' Hin].
    rewrite E. eexists _, _. split; [reflexivity|]. split; [split; simpl; auto|].
    simpl root. simpl size. split; [|split].
    + intros Hx. destruct (Habs Hx) as [-> ->]. reflexivity.
    + intros Hx. split; [|now apply Hpres].
      now apply (count_delete _ _ x).
    + rewrite <- !shape_levels by assumption. exact Hh.
Qed.

(** [size] never exceeds the number of nodes. *)
Lemma run_size_le (ops : list op) :
  forall t t', avl t -> size t <= count (root t) ->
               run ops t = Some t' -> size t' <= count (root t').
Proof.
  induction ops as [|o ops IH]; intros t t' Ha Hs E.
  - simpl in E. injection E as <-. exact Hs.
  - simpl in E. destruct o as [x|x]; simpl in E.
    + destruct (insert_measure t x Ha) as (t1 & E1 & Ha1 & Hold & Hnew & _).
      rewrite E1 in E. simpl in E. apply (IH t1 t' Ha1); [|exact E].
      destruct (in_dec Z.eq_dec x (inorder_traversal t)) as [Hx|Hx].
      * now rewrite (Hold Hx).
      * destruct (Hnew Hx) as [Hc Hz]. rewrite Hc, Hz.
        destruct (root t); [pose proof (count_nonneg Nil); simpl; lia|lia].
    + destruct (delete_measure t x Ha) as (b & t1 & E1 & Ha1 & Habs & Hpres & _).
      rewrite E1 in E. simpl in E. apply (IH t1 t' Ha1); [|exact E].
      destruct (in_dec Z.eq_dec x (inorder_traversal t)) as [Hx|Hx].
      * destruct (Hpres Hx) as [Hc Hz]. lia.
      * now rewrite (Habs Hx).
Qed.

(** After [insert] calls only, [size] is the number of nodes. *)
Lemma build_size_eq (l : list Z) :
  forall t t', avl t -> size t = count (root t) ->
               run (map Insert l) t = Some t' -> size t' = count (root t').
Proof.
  induction l as [|x l IH]; intros t t' Ha Hs E.
  - simpl in E. injection E as <-. exact Hs.
  - simpl in E.
    destruct (insert_measure t x Ha) as (t1 & E1 & Ha1 & Hold & Hnew & _).
    rewrite E1 in E. simpl in E. apply (IH t1 t' Ha1); [|exact E].
    destruct (in_dec Z.eq_dec x (inorder_traversal t)) as [Hx|Hx].
    + now rewrite (Hold Hx).
    + destruct (Hnew Hx) as [Hc Hz]. rewrite Hc, Hz.
      destruct (root t); [simpl; lia|lia].
Qed.

(** X1. On a tree obtained by [insert] and [delete] calls the in-order
    traversal is strictly increasing, and [search] returns [True] exactly
    for the keys it lists. *)
Theorem search_is_membership (t : AVLTree) (k : Z) :
  reachable t ->
  StronglySorted Z.lt (inorder_traversal t)
  /\ (search t k = true <-> In k (inorder_traversal t)).
Proof.
  intros Hr. apply reachable_avl in Hr. split.
  - apply Hr.
  - now apply search_true_in.
Qed.

Lemma search_is_membership_witness :
  let t := mkTree (Node 2 (Node 1 Nil Nil Nil 1) (Node 3 Nil Nil Nil 1) Nil 2) 3 in
  StronglySorted Z.lt (inorder_traversal t)
  /\ (search t 3 = true <-> In 3 (inorder_traversal t)).
Proof.
  intros t. apply (search_is_membership t 3).
  exists [Insert 1; Insert 2; Insert 3]. reflexivity.
Defined.

(** X2. On a tree obtained by [insert] and [delete] calls, [insert(k)]
    returns a tree in which [search] finds [k] and, for every other key,
    answers as before. *)
Theorem insert_then_search (t : AVLTree) (k : Z) :
  reachable t ->
  exists t',
    insert t k = Some t'
    /\ search t' k = true
    /\ forall y, y <> k -> search t' y = search t y.
Proof.
  intros Hr. apply reachable_avl in Hr.
  destruct (insert_spec t k Hr) as (t' & E & Ha' & Hin & _).
  exists t'. split; [exact E|]. split.
  - apply (search_true_in t' k Ha'). apply Hin. now left.
  - intros y Hy. destruct (search t y) eqn:Es.
    + apply (search_true_in t' y Ha'). apply Hin. right.
      now apply (search_true_in t y Hr).
    + apply (search_false_not_in t' y Ha'). rewrite Hin.
      apply (search_false_not_in t y Hr) in Es. tauto.
Qed.

Lemma insert_then_search_witness :
  exists t',
    insert (mkTree (Node 1 Nil (Node 2 Nil Nil Nil 1) Nil 2) 2) 3 = Some t'
    /\ search t' 3 = true
    /\ forall y, y <> 3 ->
         search t' y = search (mkTree (Node 1 Nil (Node 2 Nil Nil Nil 1) Nil 2) 2) y.
Proof.
  apply insert_then_search. exists [Insert 1; Insert 2]. reflexivity.
Defined.

(** X3. On a tree obtained by [insert] and [delete] calls, [delete(k)]
    returns; its boolean result tells whether [k] was stored; afterwards
    [search] does not find [k] and, for every other key, answers as
    before. *)
Theorem delete_then_search (t : AVLTree) (k : Z) :
  reachable t ->
  exists b t',
    delete t k = Some (b, t')
    /\ b = search t k
    /\ search t' k = false
    /\ forall y, y <> k -> search t' y = search t y.
Proof.
  intros Hr. apply reachable_avl in Hr.
  destruct (delete_spec t k Hr) as (b & t' & E & Ha' & Hin & Hb & _).
  exists b, t'. split; [exact E|]. split; [|split].
  - destruct (search t k) eqn:Es.
    + apply Hb. now apply (search_true_in t k Hr).
    + apply (search_false_not_in t k Hr) in Es.
      destruct b; [|reflexivity]. elim Es. now apply Hb.
  - apply (search_false_not_in t' k Ha'). rewrite Hin. tauto.
  - intros y Hy. destruct (search t y) eqn:Es.
    + apply (search_true_in t' y Ha'). apply Hin. split; [|exact Hy].
      now apply (search_true_in t y Hr).
    + apply (search_false_not_in t' y Ha'). rewrite Hin.
      apply (search_false_not_in t y Hr) in Es. tauto.
Qed.

Lemma delete_then_search_witness :
  exists b t',
    delete (mkTree (Node 2 (Node 1 Nil Nil Nil 1) (Node 3 Nil Nil Nil 1) Nil 2) 3) 2
    = Some (b, t')
    /\ b = search (mkTree (Node 2 (Node 1 Nil Nil Nil 1) (Node 3 Nil Nil Nil 1) Nil 2) 3) 2
    /\ search t' 2 = false
    /\ forall y, y <> 2 ->
         search t' y
         = search (mkTree (Node 2 (Node 1 Nil Nil Nil 1) (Node 3 Nil Nil Nil 1) Nil 2) 3) y.
Proof.
  apply delete_then_search. exists [Insert 1; Insert 2; Insert 3]. reflexivity.
Defined.

(** X4. [get_size] never exceeds the number of keys stored, on every tree
    obtained by [insert] and [delete] calls; on a tree obtained by [insert]
    calls only it is that number. *)
Theorem size_counts_keys (t : AVLTree) (l : list Z) :
  (reachable t -> get_size t <= Z.of_nat (length (inorder_traversal t)))
  /\ (build l = Some t -> get_size t = Z.of_nat (length (inorder_traversal t))).
Proof.
  unfold get_size, inorder_traversal. fold (keys (root t)).
  rewrite <- count_keys. split.
  - intros [ops E].
    apply (run_size_le ops empty t avl_empty); [simpl; lia|exact E].
  - intros E.
    apply (build_size_eq l empty t avl_empty); [reflexivity|exact E].
Qed.

Lemma size_counts_keys_witness :
  let t := mkTree (Node 2 (Node 1 Nil Nil Nil 1) (Node 3 Nil Nil Nil 1) Nil 2) 3 in
  get_size t <= Z.of_nat (length (inorder_traversal t))
  /\ get_size t = Z.of_nat (length (inorder_traversal t)).
Proof.
  intros t. destruct (size_counts_keys t [1; 2; 3]) as [H1 H2]. split.
  - apply H1. exists [Insert 1; Insert 2; Insert 3]. reflexivity.
  - apply H2. reflexivity.
Defined.

(** X13. On a tree obtained by [insert] and [delete] calls, one [insert]
    leaves the height as it is or raises it by one, and one [delete] leaves
    it as it is or lowers it by one. *)
Theorem height_changes_by_one (t : AVLTree) (k : Z) :
  reachable t ->
  (exists t', insert t k = Some t'
              /\ (edge_height (root t') = edge_height (root t)
                  \/ edge_height (root t') = edge_height (root t) + 1))
  /\ (exists b t', delete t k = Some (b, t')
                   /\ (edge_height (root t') = edge_height (root t)
                       \/ edge_height (root t') = edge_height (root t) - 1)).
Proof.
  intros Hr. apply reachable_avl in Hr. unfold edge_height. split.
  - destruct (insert_measure t k Hr) as (t' & E & _ & _ & _ & Hh).
    exists t'. split; [exact E|lia].
  - destruct (delete_measure t k Hr) as (b & t' & E & _ & _ & _ & Hh).
    exists b, t'. split; [exact E|lia].
Qed.

Lemma height_changes_by_one_witness :
  exists t',
    insert (mkTree (Node 1 Nil (Node 2 Nil Nil Nil 1) Nil 2) 2) 3 = Some t'
    /\ (edge_height (root t')
        = edge_height (root (mkTree (Node 1 Nil (Node 2 Nil Nil Nil 1) Nil 2) 2))
        \/ edge_height (root t')
           = edge_height (root (mkTree (Node 1 Nil (Node 2 Nil Nil Nil 1) Nil 2) 2)) + 1).
Proof.
  refine (proj1 (height_changes_by_one
            (mkTree (Node 1 Nil (Node 2 Nil Nil Nil 1) Nil 2) 2) 3 _)).
  exists [Insert 1; Insert 2]. reflexivity.
Defined.

(** ** [get_height], the height bound and the reachable shapes *)

(** X5. [get_height()] returns, given enough recursion depth, exactly on
    the trees in which no node has exactly one child, and then it returns
    the height counted in edges ([-1] for the empty tree); on every other
    tree no recursion depth is enough. *)
Theorem get_height_returns_iff_no_half_node (self : AVLTree) :
  (has_half (root self) = false ->
   forall fuel, (Z.to_nat (levels (root self)) < fuel)%nat ->
                get_height fuel self = Some (edge_height (root self)))
  /\ (has_half (root self) = true -> forall fuel, get_height fuel self = None).
Proof.
  unfold get_height. split.
  - intros Hh fuel Hf. destruct (root self) as [|d l r p h] eqn:E.
    + destruct fuel; [lia|reflexivity].
    + rewrite get_height_from_root.
      apply get_height_from_full; [assumption|discriminate|].
      pose proof (levels_nonneg (Node d l r p h)). lia.
  - apply get_height_diverges.
Qed.

Lemma get_height_returns_iff_no_half_node_witness :
  get_height 3 (mkTree (Node 2 (Node 1 Nil Nil Nil 1) (Node 3 Nil Nil Nil 1) Nil 2) 3)
  = Some 1
  /\ forall fuel,
       get_height fuel (mkTree (Node 1 Nil (Node 2 Nil Nil Nil 1) Nil 2) 2) = None.
Proof.
  split.
  - refine (proj1 (get_height_returns_iff_no_half_node
      (mkTree (Node 2 (Node 1 Nil Nil Nil 1) (Node 3 Nil Nil Nil 1) Nil 2) 3))
      eq_refl 3%nat _). simpl. lia.
  - exact (proj2 (get_height_returns_iff_no_half_node
      (mkTree (Node 1 Nil (Node 2 Nil Nil Nil 1) Nil 2) 2)) eq_refl).
Defined.

(** X14. After any sequence of [insert] and [delete] calls, the height of
    the tree counted in edges is at most [1.4405 * log2 (m + 2) - 1], where
    [m] is the number of keys stored. *)
Theorem reachable_height_bound (t : AVLTree) :
  reachable t ->
  (IZR (edge_height (root t))
   <= 1.4405 * log2R (INR (length (inorder_traversal t)) + 2) - 1)%R.
Proof.
  intros Hr. apply reachable_avl in Hr. destruct Hr as [Hs _].
  unfold inorder_traversal. fold (keys (root t)).
  pose proof (count_keys (root t)) as Hc.
  pose proof (shape_height_nonneg _ Hs) as Hh.
  pose proof (count_nonneg (root t)) as Hc0.
  assert (Hm : 0 <= count (root t) + 1 <= Z.of_nat (length (keys (root t))) + 2) by lia.
  assert (Hx : 0 < Z.of_nat (length (keys (root t))) + 2) by lia.
  assert (Hq : (0 < 2000)%nat) by lia.
  pose proof (avl_height_bound_Z _ Hs) as HZ.
  unfold edge_height. rewrite <- (shape_levels _ Hs).
  assert (HZ' : 2 ^ (Z.of_nat 2000 * Z.of_nat (Z.to_nat (_get_height (root t))))
                <= (Z.of_nat (length (keys (root t))) + 2) ^ Z.of_nat 2881).
  { rewrite Z2Nat.id by exact Hh. change (Z.of_nat 2000) with 2000.
    change (Z.of_nat 2881) with 2881.
    eapply Z.le_trans; [exact HZ|]. apply Z.pow_le_mono_l. exact Hm. }
  clear HZ. apply (log2R_ge_of_pow _ _ _ _ Hx Hq) in HZ'.
  rewrite plus_IZR, <- INR_IZR_INZ in HZ'.
  rewrite (INR_IZR_INZ (Z.to_nat _)), (INR_IZR_INZ 2881), (INR_IZR_INZ 2000) in HZ'.
  rewrite Z2Nat.id in HZ' by exact Hh.
  change (Z.of_nat 2881) with 2881 in HZ'. change (Z.of_nat 2000) with 2000 in HZ'.
  rewrite minus_IZR. lra.
Qed.

Lemma reachable_height_bound_witness :
  let t := mkTree (Node 3 (Node 1 Nil Nil Nil 1) Nil Nil 2) 1 in
  (IZR (edge_height (root t))
   <= 1.4405 * log2R (INR (length (inorder_traversal t)) + 2) - 1)%R.
Proof.
  intros t. apply (reachable_height_bound t).
  exists [Insert 2; Insert 1; Insert 3; Delete 2]. reflexivity.
Defined.

(** X15. The invariant is exact: every tree with the BST ordering, balanced
    and up-to-date cached heights and no parent reference is the result of
    [insert] calls alone, on its keys in a suitable order. *)
Theorem every_avl_tree_is_built (tr : tree) :
  shape tr -> bst tr ->
  exists l,
    NoDup l /\ Permutation l (keys tr)
    /\ build l = Some (mkTree tr (count tr)).
Proof.
  intros Hs Hb. apply bst_sorted in Hb.
  pose proof (count_nonneg tr) as Hc.
  destruct (avl_buildable (Z.to_nat (count tr)) tr) as (l & Hnd & Hlen & Hbuild);
    [now rewrite Z2Nat.id|assumption|assumption|].
  rewrite Z2Nat.id in Hbuild by assumption.
  exists l. split; [exact Hnd|]. split; [|exact Hbuild].
  destruct (build_spec l empty avl_empty) as (t' & Hb' & _ & Hin).
  unfold build in Hbuild. rewrite Hbuild in Hb'. injection Hb' as <-.
  apply NoDup_Permutation; [exact Hnd|now apply sorted_NoDup|].
  intros y. specialize (Hin y). unfold inorder_traversal in Hin. simpl in Hin.
  fold (keys tr) in Hin. tauto.
Qed.

Lemma every_avl_tree_is_built_witness :
  exists l,
    NoDup l
    /\ Permutation l (keys (Node 2 (Node 1 Nil Nil Nil 1) Nil Nil 2))
    /\ build l = Some (mkTree (Node 2 (Node 1 Nil Nil Nil 1) Nil Nil 2)
                              (count (Node 2 (Node 1 Nil Nil Nil 1) Nil Nil 2))).
Proof.
  apply every_avl_tree_is_built.
  - simpl. repeat split; lia.
  - simpl. repeat split; repeat constructor.
Defined.

(** ** Successor and predecessor *)

Lemma search_result_key (t : tree) (k d : Z) (l r p : tree) (h : Z) :
  _search_recursive t k = Node d l r p h -> d = k /\ node_of (Node d l r p h) t.
Proof.
  induction t as [|d' l' IHl r' IHr p' _ h']; [discriminate|].
  simpl. destruct (Z.eqb_spec d' k) as [->|Hne].
  - intros E. injection E as <- <- <- <- <-. split; [reflexivity|now left].
  - destruct (k <? d'); intros E.
    + destruct (IHl E) as [-> Hn]. split; [reflexivity|]. right. now left.
    + destruct (IHr E) as [-> Hn]. split; [reflexivity|]. right. now right.
Qed.

(** In a BST, the least key of the right subtree of a node is the least key
    of the whole tree above the key of that node. *)
Lemma successor_in_right_subtree (t : tree) (k m : Z) (l r p : tree) (h : Z)
      (rest : list Z) :
  sorted (keys t) -> node_of (Node k l r p h) t -> keys r = m :: rest ->
  In m (keys t) /\ k < m /\ forall y, In y (keys t) -> k < y -> m <= y.
Proof.
  induction t as [|d tl IHl tr IHr tp _ th]; [contradiction|].
  rewrite keys_node, sorted_app_cons. intros (Hsl & Hsr & Hfl & Hfr) Hn Hk.
  simpl in Hn. destruct Hn as [E|[Hn|Hn]].
  - injection E as -> -> -> -> ->. rewrite Hk in *.
    apply sorted_cons_inv in Hsr. destruct Hsr as [_ Hmin].
    inversion Hfr as [|? ? Hkm _]; subst.
    split; [rewrite in_app_iff; simpl; auto|]. split; [exact Hkm|].
    intros y Hy Hlt. rewrite in_app_iff in Hy. simpl in Hy.
    destruct Hy as [Hy|[Hy|[Hy|Hy]]]; try lia.
    + pose proof (Forall_lt_in _ _ _ Hfl Hy). simpl in *. lia.
    + pose proof (Forall_lt_in _ _ _ Hmin Hy). simpl in *. lia.
  - destruct (IHl Hsl Hn Hk) as (Hin & Hlt & Hleast).
    pose proof (Forall_lt_in _ _ _ Hfl Hin) as Hmd. simpl in Hmd.
    split; [rewrite in_app_iff; auto|]. split; [exact Hlt|].
    intros y Hy Hky. rewrite in_app_iff in Hy. simpl in Hy.
    destruct Hy as [Hy|[Hy|Hy]]; [auto|lia|].
    pose proof (Forall_lt_in _ _ _ Hfr Hy). simpl in *. lia.
  - destruct (IHr Hsr Hn Hk) as (Hin & Hlt & Hleast).
    split; [rewrite in_app_iff; simpl; auto|]. split; [exact Hlt|].
    intros y Hy Hky. rewrite in_app_iff in Hy. simpl in Hy.
    destruct Hy as [Hy|[Hy|Hy]]; [| |auto].
    + pose proof (Forall_lt_in _ _ _ Hfl Hy) as Hyd. simpl in Hyd.
      assert (Hkr : In k (keys tr)).
      { apply (node_of_key (Node k l r p h) tr k Hn). reflexivity. }
      pose proof (Forall_lt_in _ _ _ Hfr Hkr). simpl in *. lia.
    + subst y.
      assert (Hkr : In k (keys tr)).
      { apply (node_of_key (Node k l r p h) tr k Hn). reflexivity. }
      pose proof (Forall_lt_in _ _ _ Hfr Hkr). simpl in *. lia.
Qed.

Lemma predecessor_in_left_subtree (t : tree) (k m : Z) (l r p : tree) (h : Z)
      (front : list Z) :
  sorted (keys t) -> node_of (Node k l r p h) t -> keys l = front ++ [m] ->
  In m (keys t) /\ m < k /\ forall y, In y (keys t) -> y < k -> y <= m.
Proof.
  induction t as [|d tl IHl tr IHr tp _ th]; [contradiction|].
  rewrite keys_node, sorted_app_cons. intros (Hsl & Hsr & Hfl & Hfr) Hn Hk.
  simpl in Hn. destruct Hn as [E|[Hn|Hn]].
  - injection E as -> -> -> -> ->. rewrite Hk in *.
    apply sorted_app_cons in Hsl. destruct Hsl as (_ & _ & Hmax & _).
    apply Forall_app in Hfl. destruct Hfl as [Hfront Hm].
    inversion Hm as [|? ? Hmk _]; subst.
    split; [rewrite !in_app_iff; simpl; auto|]. split; [exact Hmk|].
    intros y Hy Hlt. rewrite !in_app_iff in Hy. simpl in Hy.
    destruct Hy as [[Hy|[Hy|[]]]|[Hy|Hy]]; try lia.
    + pose proof (Forall_lt_in _ _ _ Hmax Hy). simpl in *. lia.
    + pose proof (Forall_lt_in _ _ _ Hfr Hy). simpl in *. lia.
  - destruct (IHl Hsl Hn Hk) as (Hin & Hlt & Hgreatest).
    split; [rewrite in_app_iff; auto|]. split; [exact Hlt|].
    intros y Hy Hky. rewrite in_app_iff in Hy. simpl in Hy.
    destruct Hy as [Hy|[Hy|Hy]]; [auto| |].
    + subst y.
      assert (Hkl : In k (keys tl)).
      { apply (node_of_key (Node k l r p h) tl k Hn). reflexivity. }
      pose proof (Forall_lt_in _ _ _ Hfl Hkl). simpl in *. lia.
    + pose proof (Forall_lt_in _ _ _ Hfr Hy) as Hyd. simpl in Hyd.
      assert (Hkl : In k (keys tl)).
      { apply (node_of_key (Node k l r p h) tl k Hn). reflexivity. }
      pose proof (Forall_lt_in _ _ _ Hfl Hkl). simpl in *. lia.
  - destruct (IHr Hsr Hn Hk) as (Hin & Hlt & Hgreatest).
    pose proof (Forall_lt_in _ _ _ Hfr Hin) as Hmd. simpl in Hmd.
    split; [rewrite in_app_iff; simpl; auto|]. split; [exact Hlt|].
    intros y Hy Hky. rewrite in_app_iff in Hy. simpl in Hy.
    destruct Hy as [Hy|[Hy|Hy]]; [|lia|auto].
    pose proof (Forall_lt_in _ _ _ Hfl Hy). simpl in *. lia.
Qed.

(** X6. On a tree obtained by [insert] and [delete] calls,
    [find_successor] and [find_predecessor] return without error; a key
    they return is the least stored key above [k] (the greatest below [k]);
    they return a key exactly when the node of [k] has a right (left)
    child, and [None] in particular when [k] is not stored. *)
Theorem successor_predecessor_sound (t : AVLTree) (k : Z) :
  reachable t ->
  (exists res,
     find_successor t k = Some res
     /\ (forall s, res = Some s ->
           In s (inorder_traversal t) /\ k < s
           /\ forall y, In y (inorder_traversal t) -> k < y -> s <= y)
     /\ (res <> None <->
         match _search_recursive (root t) k with
         | Node _ _ (Node _ _ _ _ _) _ _ => True
         | _ => False
         end))
  /\ (exists res,
        find_predecessor t k = Some res
        /\ (forall s, res = Some s ->
              In s (inorder_traversal t) /\ s < k
              /\ forall y, In y (inorder_traversal t) -> y < k -> y <= s)
        /\ (res <> None <->
            match _search_recursive (root t) k with
            | Node _ (Node _ _ _ _ _) _ _ _ => True
            | _ => False
            end)).
Proof.
  intros Hr. rewrite (find_successor_no_parent t k Hr),
                     (find_predecessor_no_parent t k Hr).
  apply reachable_avl in Hr. destruct Hr as [_ Hso].
  unfold inorder_traversal. fold (keys (root t)).
  destruct (_search_recursive (root t) k) as [|d l r p h] eqn:Es.
  - split; exists None; (split; [reflexivity|]);
      (split; [discriminate|]); split; try contradiction; intros H; now elim H.
  - destruct (search_result_key _ _ _ _ _ _ _ Es) as [-> Hn]. split.
    + destruct r as [|rd rl rr rp rh].
      * exists None. split; [reflexivity|]. split; [discriminate|].
        split; [intros H; now elim H|contradiction].
      * destruct (find_min_node_spec (Node rd rl rr rp rh))
          as (m & mr & mp & mh & rest & Emin & Kr); [discriminate|].
        exists (Some m). rewrite Emin. split; [reflexivity|].
        split; [|split; [auto|discriminate]].
        intros s E. injection E as <-.
        exact (successor_in_right_subtree _ _ _ _ _ _ _ _ Hso Hn Kr).
    + destruct l as [|ld ll lr lp lh].
      * exists None. split; [reflexivity|]. split; [discriminate|].
        split; [intros H; now elim H|contradiction].
      * destruct (find_max_in_subtree_spec (Node ld ll lr lp lh))
          as (m & front & Emax & Kl); [discriminate|].
        exists (Some m). rewrite Emax. split; [reflexivity|].
        split; [|split; [auto|discriminate]].
        intros s E. injection E as <-.
        exact (predecessor_in_left_subtree _ _ _ _ _ _ _ _ Hso Hn Kl).
Qed.

Lemma successor_predecessor_sound_witness :
  exists res,
    find_successor
      (mkTree (Node 2 (Node 1 Nil Nil Nil 1) (Node 3 Nil Nil Nil 1) Nil 2) 3) 2
    = Some res.
Proof.
  destruct (successor_predecessor_sound
    (mkTree (Node 2 (Node 1 Nil Nil Nil 1) (Node 3 Nil Nil Nil 1) Nil 2) 3) 2)
    as [(res & E & _) _].
  - exists [Insert 1; Insert 2; Insert 3]. reflexivity.
  - exists res. exact E.
Defined.

(** ** Rotations *)

(** X9. A rotation keeps the in-order sequence of the subtree, hence its
    BST ordering, and on a subtree with up-to-date cached heights the
    opposite rotation undoes it. *)
Theorem rotations_are_inverse (y x : tree) :
  (_rotate_right y = Some x ->
   keys x = keys y /\ (bst y -> bst x)
   /\ (heights_ok y -> _rotate_left x = Some y))
  /\ (_rotate_left x = Some y ->
      keys y = keys x /\ (bst x -> bst y)
      /\ (heights_ok x -> _rotate_right y = Some x)).
Proof.
  split.
  - destruct y as [|yd [|xd xl T2 xp xh] yr yp yh]; try discriminate.
    intros E. simpl in E. injection E as <-.
    assert (K : keys (Node xd xl (Node yd T2 yr yp
                        (Z.max (_get_height T2) (_get_height yr) + 1)) xp
                        (Z.max (_get_height xl)
                           (Z.max (_get_height T2) (_get_height yr) + 1) + 1))
                = keys (Node yd (Node xd xl T2 xp xh) yr yp yh)) by keys_eq.
    split; [exact K|]. split.
    + rewrite !bst_sorted, K. auto.
    + simpl. intros (Hy & (Hx & _) & _). subst xh yh. reflexivity.
  - destruct x as [|xd xl [|yd T2 yr yp yh] xp xh]; try discriminate.
    intros E. simpl in E. injection E as <-.
    assert (K : keys (Node yd (Node xd xl T2 xp
                        (Z.max (_get_height xl) (_get_height T2) + 1)) yr yp
                        (Z.max (Z.max (_get_height xl) (_get_height T2) + 1)
                           (_get_height yr) + 1))
                = keys (Node xd xl (Node yd T2 yr yp yh) xp xh)) by keys_eq.
    split; [exact K|]. split.
    + rewrite !bst_sorted, K. auto.
    + simpl. intros (Hx & _ & (Hy & _)). subst xh yh. reflexivity.
Qed.

Lemma rotations_are_inverse_witness :
  _rotate_left (Node 1 Nil (Node 2 Nil Nil Nil 1) Nil 2)
  = Some (Node 2 (Node 1 Nil Nil Nil 1) Nil Nil 2).
Proof.
  refine (proj2 (proj2 (proj1 (rotations_are_inverse
            (Node 2 (Node 1 Nil Nil Nil 1) Nil Nil 2)
            (Node 1 Nil (Node 2 Nil Nil Nil 1) Nil 2)) eq_refl)) _).
  simpl. repeat split; reflexivity.
Defined.

(** ** [BinarySearchTree.delete] *)

Lemma delete_recursive_spec (t : tree) (x s : Z) :
  sorted (keys t) ->
  exists t' s',
    _delete_recursive t x s = Some (t', s')
    /\ sorted (keys t')
    /\ (forall y, In y (keys t') <-> In y (keys t) /\ y <> x)
    /\ (~ In x (keys t) -> t' = t /\ s' = s)
    /\ (In x (keys t) -> s' < s).
Proof.
  revert x s. induction t as [|d l IHl r IHr p _ h]; intros x s Hso.
  - exists Nil, s. simpl. split; [reflexivity|]. split; [exact Hso|].
    split; [simpl; tauto|]. split; [auto|contradiction].
  - rewrite keys_node in Hso. pose proof Hso as Hso0.
    apply sorted_app_cons in Hso. destruct Hso as (Hsl & Hsr & Hfl & Hfr).
    simpl. unfold bind, lift, ret, add_size. rewrite Z.gtb_ltb.
    destruct (Z.ltb_spec x d) as [Hlt|Hge]; [|destruct (Z.ltb_spec d x) as [Hgt|Hle]].
    + destruct (IHl x s Hsl) as (l' & s' & El & Hsl' & Hin & Habs & Hpres).
      rewrite El. exists (Node d l' r p h), s'. split; [reflexivity|].
      rewrite !keys_node. split; [|split; [|split]].
      * apply sorted_app_cons. repeat split; auto.
        apply Forall_forall. intros y Hy. apply Hin in Hy.
        exact (Forall_lt_in _ _ _ Hfl (proj1 Hy)).
      * intros y. rewrite !in_app_iff. simpl. rewrite Hin. split.
        -- intros [[Hy Hne]|[Hy|Hy]].
           ++ split; auto.
           ++ subst y. split; [auto|lia].
           ++ pose proof (Forall_lt_in _ _ _ Hfr Hy). simpl in *. split; [auto|lia].
        -- intros [[Hy|[Hy|Hy]] Hne]; auto.
      * rewrite in_app_iff. intros Hnot. destruct Habs as [-> ->]; [tauto|]. auto.
      * rewrite in_app_iff. simpl. intros Hx. apply Hpres.
        destruct Hx as [Hx|[Hx|Hx]]; auto; [lia|].
        pose proof (Forall_lt_in _ _ _ Hfr Hx). simpl in *. lia.
    + destruct (IHr x s Hsr) as (r' & s' & Er & Hsr' & Hin & Habs & Hpres).
      rewrite Er. exists (Node d l r' p h), s'. split; [reflexivity|].
      rewrite !keys_node. split; [|split; [|split]].
      * apply sorted_app_cons. repeat split; auto.
        apply Forall_forall. intros y Hy. apply Hin in Hy.
        exact (Forall_lt_in _ _ _ Hfr (proj1 Hy)).
      * intros y. rewrite !in_app_iff. simpl. rewrite Hin. split.
        -- intros [Hy|[Hy|[Hy Hne]]].
           ++ pose proof (Forall_lt_in _ _ _ Hfl Hy). simpl in *. split; [auto|lia].
           ++ subst y. split; [auto|lia].
           ++ split; auto.
        -- intros [[Hy|[Hy|Hy]] Hne]; auto.
      * rewrite in_app_iff. simpl. intros Hnot. destruct Habs as [-> ->]; [tauto|]. auto.
      * rewrite in_app_iff. simpl. intros Hx. apply Hpres.
        destruct Hx as [Hx|[Hx|Hx]]; auto; [|lia].
        pose proof (Forall_lt_in _ _ _ Hfl Hx). simpl in *. lia.
    + assert (x = d) by lia. subst x. clear Hge Hle.
      assert (Hrem : forall y, In y (keys l) \/ In y (keys r)
                               <-> In y (keys l ++ d :: keys r) /\ y <> d).
      { intros y. rewrite in_app_iff. simpl. split.
        - intros [Hy|Hy].
          + pose proof (Forall_lt_in _ _ _ Hfl Hy). simpl in *. split; [auto|lia].
          + pose proof (Forall_lt_in _ _ _ Hfr Hy). simpl in *. split; [auto|lia].
        - intros [[Hy|[Hy|Hy]] Hne]; auto. congruence. }
      assert (Hd : In d (keys l ++ d :: keys r))
        by (rewrite in_app_iff; simpl; auto).
      destruct l as [|ld ll lr lp lh]; [destruct r as [|rd rl rr rp rh]|
                                        destruct r as [|rd rl rr rp rh]].
      * exists Nil, (s + -1). split; [reflexivity|]. split; [constructor|].
        split; [|split; [tauto|lia]].
        intros y. rewrite <- Hrem. simpl. tauto.
      * exists (Node rd rl rr rp rh), (s + -1). split; [reflexivity|].
        rewrite (keys_node d).
        split; [exact Hsr|]. split; [|split; [tauto|lia]].
        intros y. rewrite <- Hrem. simpl. tauto.
      * exists (Node ld ll lr lp lh), (s + -1). split; [reflexivity|].
        rewrite (keys_node d).
        split; [exact Hsl|]. split; [|split; [tauto|lia]].
        intros y. rewrite <- Hrem. simpl. tauto.
      * set (l := Node ld ll lr lp lh) in *. set (r := Node rd rl rr rp rh) in *.
        destruct (find_min_node_spec r) as (sd & mr & mp & mh & rest & Emin & Kr);
          [discriminate|].
        fold r. rewrite Emin. simpl data_of. cbv iota beta.
        destruct (IHr sd (s + -1) Hsr) as (r' & s' & Er' & Hsr' & Hin & Habs & Hpres).
        rewrite Er'.
        assert (Hsdr : In sd (keys r)) by (rewrite Kr; now left).
        pose proof (Forall_lt_in _ _ _ Hfr Hsdr) as Hdsd. simpl in Hdsd.
        exists (Node sd l r' p h), s'. split; [reflexivity|].
        rewrite (keys_node sd), (keys_node d). split; [|split; [|split]].
        -- apply sorted_app_cons.
           assert (Hmin : forall y, In y (keys r) -> y <> sd -> sd < y).
           { intros y Hy Hne. rewrite Kr in Hy, Hsr.
             apply sorted_cons_inv in Hsr. destruct Hsr as [_ Hf].
             destruct Hy as [Hy|Hy]; [congruence|].
             exact (Forall_lt_in _ _ _ Hf Hy). }
           repeat split; auto.
           ++ eapply Forall_impl; [|exact Hfl]. simpl. intros; lia.
           ++ apply Forall_forall. intros y Hy. apply Hin in Hy. destruct Hy. auto.
        -- intros y. rewrite <- Hrem, in_app_iff. simpl. rewrite Hin. split.
           ++ intros [Hy|[Hy|[Hy Hne]]]; [auto|subst; auto|auto].
           ++ intros [Hy|Hy]; [auto|].
              destruct (Z.eq_dec y sd); [right; left; congruence|].
              right. right. auto.
        -- tauto.
        -- intros _. specialize (Hpres Hsdr). lia.
Qed.

(** X16. On a tree with the BST ordering, [BinarySearchTree.delete] (the
    method [AVLTree.delete] overrides) returns a tree with the BST ordering
    that stores the same keys except [k].  Its result is [True] whenever
    the tree is not empty, also when [k] is not stored; the tree is then
    left as it was. *)
Theorem bst_delete_spec (t : AVLTree) (k : Z) :
  bst (root t) ->
  exists t',
    bst_delete t k = Some (negb (is_empty t), t')
    /\ bst (root t')
    /\ (forall y, In y (inorder_traversal t')
                  <-> In y (inorder_traversal t) /\ y <> k)
    /\ (~ In k (inorder_traversal t) -> t' = t)
    /\ (In k (inorder_traversal t) -> size t' < size t).
Proof.
  intros Hb. apply bst_sorted in Hb.
  unfold bst_delete, is_empty, inorder_traversal. fold (keys (root t)).
  destruct t as [rt sz]. simpl in *.
  destruct rt as [|d l r p h].
  - exists (mkTree Nil sz). split; [reflexivity|]. split; [exact I|].
    simpl. split; [tauto|]. split; [auto|contradiction].
  - destruct (delete_recursive_spec (Node d l r p h) k sz Hb)
      as (t' & s' & E & Hso' & Hin & Habs & Hpres).
    rewrite E. exists (mkTree t' s'). split; [reflexivity|].
    split; [now apply bst_sorted|]. split; [exact Hin|]. simpl. split.
    + intros Hk. destruct (Habs Hk) as [-> ->]. reflexivity.
    + exact Hpres.
Qed.

Lemma bst_delete_spec_witness :
  exists t',
    bst_delete (mkTree (Node 2 (Node 1 Nil Nil Nil 1) Nil Nil 2) 2) 7
    = Some (true, t').
Proof.
  destruct (bst_delete_spec (mkTree (Node 2 (Node 1 Nil Nil Nil 1) Nil Nil 2) 2) 7)
    as (t' & E & _).
  - simpl. repeat split; repeat constructor.
  - exists t'. exact E.
Defined.

(** ** Rebuilding a tree from its level-order traversal *)

Lemma by_levels_snoc (c : nat) :
  forall forest, by_levels (S c) forest = by_levels c forest ++ nth_level c forest.
Proof.
  induction c as [|c IH]; intros forest.
  - simpl. now rewrite app_nil_r.
  - change (by_levels (S (S c)) forest)
      with (root_keys forest ++ by_levels (S c) (children forest)).
    rewrite IH. simpl. now rewrite app_assoc.
Qed.

Lemma nth_level_app (c : nat) :
  forall f1 f2, nth_level c (f1 ++ f2) = nth_level c f1 ++ nth_level c f2.
Proof.
  induction c as [|c IH]; intros f1 f2; simpl.
  - unfold root_keys. apply flat_map_app.
  - now rewrite children_app, IH.
Qed.

Lemma nth_level_nil (c : nat) : nth_level c [] = [] /\ nth_level c [Nil] = [].
Proof.
  induction c as [|c [IH _]]; [split; reflexivity|]. split; simpl; exact IH.
Qed.

Lemma nth_level_node (c : nat) d l r p h :
  nth_level (S c) [Node d l r p h] = nth_level c [l] ++ nth_level c [r].
Proof.
  simpl. unfold children. simpl flat_map. rewrite app_nil_r.
  destruct (nth_level_nil c) as [Hn Hn'].
  destruct l as [|ld ll lr lp lh], r as [|rd rl rr rp rh]; cbn [enqueue app].
  - now rewrite Hn, Hn'.
  - now rewrite Hn'.
  - now rewrite Hn', app_nil_r.
  - apply (nth_level_app c [_] [_]).
Qed.

Lemma nth_level_at_depth (c : nat) :
  forall t x, In x (nth_level c [t]) <-> at_depth c x t.
Proof.
  induction c as [|c IH]; intros t x.
  - destruct t as [|d l r p h]; simpl; [tauto|]. intuition auto.
  - destruct t as [|d l r p h].
    + destruct (nth_level_nil (S c)) as [_ ->]. simpl. tauto.
    + rewrite nth_level_node, in_app_iff, !IH. reflexivity.
Qed.

Lemma at_depth_key (c : nat) :
  forall t x, at_depth c x t -> In x (keys t).
Proof.
  induction c as [|c IH]; intros [|d l r p h] x; simpl; try contradiction;
    rewrite keys_node, in_app_iff; simpl.
  - intros ->. auto.
  - intros [H|H]; apply IH in H; auto.
Qed.

Lemma nth_level_NoDup (c : nat) :
  forall t, sorted (keys t) -> NoDup (nth_level c [t]).
Proof.
  induction c as [|c IH]; intros t Hso.
  - destruct t; simpl; repeat constructor. auto.
  - destruct t as [|d l r p h].
    + destruct (nth_level_nil (S c)) as [_ ->]. constructor.
    + rewrite keys_node in Hso. apply sorted_app_cons in Hso.
      destruct Hso as (Hsl & Hsr & Hfl & Hfr).
      rewrite nth_level_node. apply NoDup_app; [now apply IH|now apply IH|].
      intros x Hl Hr. apply nth_level_at_depth, at_depth_key in Hl, Hr.
      pose proof (Forall_lt_in _ _ _ Hfl Hl). pose proof (Forall_lt_in _ _ _ Hfr Hr).
      simpl in *. lia.
Qed.

Lemma top_part_ext (c : nat) :
  forall t K K', (forall y, In y (keys t) -> (In y K <-> In y K')) ->
                 top_part c K t = top_part c K' t.
Proof.
  induction c as [|c IH]; intros [|d l r p h] K K' H; try reflexivity.
  - simpl. assert (Hd : In d K <-> In d K')
      by (apply H; rewrite keys_node, in_app_iff; simpl; auto).
    destruct (in_dec Z.eq_dec d K), (in_dec Z.eq_dec d K'); tauto.
  - simpl. rewrite (IH l K K'), (IH r K K'); [reflexivity| |];
      intros y Hy; apply H; rewrite keys_node, in_app_iff; simpl; auto.
Qed.

Lemma top_part_shape (c : nat) :
  forall t K, shape t ->
    shape (top_part c K t)
    /\ Z.min (_get_height t) (Z.of_nat c) <= _get_height (top_part c K t)
       <= Z.min (_get_height t) (Z.of_nat c + 1).
Proof.
  induction c as [|c IH]; intros [|d l r p h] K Hs.
  - simpl. split; [exact I|lia].
  - pose proof (shape_height_pos _ _ _ _ _ Hs). simpl top_part.
    destruct (in_dec Z.eq_dec d K); simpl; repeat split; lia.
  - simpl. split; [exact I|lia].
  - destruct Hs as (Hh & Hb & _ & Hl & Hr).
    destruct (IH l K Hl) as (Hsl & Hbl). destruct (IH r K Hr) as (Hsr & Hbr).
    pose proof (shape_height_nonneg _ Hl). pose proof (shape_height_nonneg _ Hr).
    cbn [top_part]. cbn [shape _get_height].
    rewrite Nat2Z.inj_succ. repeat split; try assumption; lia.
Qed.

Lemma top_part_full (c : nat) :
  forall t K, (forall x, at_depth c x t -> In x K) ->
              top_part c K t = top_part (S c) [] t.
Proof.
  induction c as [|c IH]; intros [|d l r p h] K H; try reflexivity.
  - simpl. destruct (in_dec Z.eq_dec d K) as [_|Hn]; [|elim Hn; now apply H].
    destruct l, r; reflexivity.
  - cbn [top_part]. rewrite (IH l K), (IH r K); [reflexivity| |];
      intros x Hx; apply H; simpl; auto.
Qed.

Lemma top_part_all (c : nat) :
  forall t, shape t -> _get_height t <= Z.of_nat c -> top_part c [] t = t.
Proof.
  induction c as [|c IH]; intros [|d l r p h] Hs Hc; try reflexivity.
  - apply shape_height_pos in Hs. simpl in Hc. lia.
  - pose proof Hs as (Hh & Hb & Hp & Hl & Hr). subst p. simpl in Hc.
    cbn [top_part]. rewrite (IH l), (IH r); try assumption; try lia.
    now rewrite <- Hh.
Qed.

(** Inserting the key of a node at depth [c] into the top part gives the top
    part with that node: no rotation takes place. *)
Lemma insert_into_top_part (c : nat) :
  forall t K x s,
    shape t -> sorted (keys t) -> at_depth c x t -> ~ In x K ->
    _insert_avl (top_part c K t) x s = Some (top_part c (x :: K) t, s + 1).
Proof.
  induction c as [|c IH]; intros [|d l r p h] K x s Hs Hso Hx HK;
    try contradiction.
  - simpl in Hx. subst d. cbn [top_part].
    destruct (in_dec Z.eq_dec x K) as [Hin|Hin]; [contradiction|].
    destruct (in_dec Z.eq_dec x (x :: K)) as [Hin'|Hin'];
      [reflexivity|elim Hin'; now left].
  - pose proof Hs as (Hh & Hb & _ & Hl & Hr).
    rewrite keys_node in Hso. apply sorted_app_cons in Hso.
    destruct Hso as (Hsl & Hsr & Hfl & Hfr).
    destruct (top_part_shape c l K Hl) as (HslK & HblK).
    destruct (top_part_shape c r K Hr) as (HsrK & HbrK).
    destruct (top_part_shape c l (x :: K) Hl) as (HslK' & HblK').
    destruct (top_part_shape c r (x :: K) Hr) as (HsrK' & HbrK').
    cbn [top_part _insert_avl]. unfold bind, lift. rewrite Z.gtb_ltb.
    simpl in Hx. destruct Hx as [Hx|Hx].
    + pose proof (Forall_lt_in _ _ _ Hfl (at_depth_key _ _ _ Hx)) as Hlt.
      simpl in Hlt. destruct (Z.ltb_spec x d); [|lia].
      rewrite (IH l K x s Hl Hsl Hx HK).
      assert (Er : top_part c (x :: K) r = top_part c K r).
      { apply top_part_ext. intros y Hy. simpl. split; [|auto].
        intros [<-|Hy']; [|exact Hy'].
        pose proof (Forall_lt_in _ _ _ Hfr Hy). simpl in *. lia. }
      rewrite Er.
      destruct (rebalance_insert_left d (top_part c (x :: K) l) (top_part c K r) Nil
                  (Z.max (_get_height (top_part c K l))
                         (_get_height (top_part c K r)) + 1) x HslK' HsrK)
        as (t' & Et & _ & _ & _ & Hcase); [lia|lia|].
      rewrite Et. destruct Hcase as [[_ ->]|[Hcase _]]; [reflexivity|lia].
    + pose proof (Forall_lt_in _ _ _ Hfr (at_depth_key _ _ _ Hx)) as Hlt.
      simpl in Hlt. destruct (Z.ltb_spec x d); [lia|].
      destruct (Z.ltb_spec d x); [|lia].
      rewrite (IH r K x s Hr Hsr Hx HK).
      assert (El : top_part c (x :: K) l = top_part c K l).
      { apply top_part_ext. intros y Hy. simpl. split; [|auto].
        intros [<-|Hy']; [|exact Hy'].
        pose proof (Forall_lt_in _ _ _ Hfl Hy). simpl in *. lia. }
      rewrite El.
      destruct (rebalance_insert_right d (top_part c K l) (top_part c (x :: K) r) Nil
                  (Z.max (_get_height (top_part c K l))
                         (_get_height (top_part c K r)) + 1) x HslK HsrK')
        as (t' & Et & _ & _ & _ & Hcase); [lia|lia|].
      rewrite Et. destruct Hcase as [[_ ->]|[Hcase _]]; [reflexivity|lia].
Qed.

Lemma insert_level (c : nat) (t : tree) :
  shape t -> sorted (keys t) ->
  forall ks K s,
    NoDup ks -> (forall x, In x ks -> at_depth c x t /\ ~ In x K) ->
    exists s',
      run (map Insert ks) (mkTree (top_part c K t) s)
      = Some (mkTree (top_part c (rev ks ++ K) t) s').
Proof.
  intros Hs Hso. induction ks as [|x ks IH]; intros K s Hnd Hks.
  - exists s. reflexivity.
  - inversion Hnd as [|? ? Hx Hnd']; subst.
    destruct (Hks x (or_introl eq_refl)) as [Hd HK].
    pose proof (insert_into_top_part c t K x) as Hins.
    assert (E : exists s1, insert (mkTree (top_part c K t) s) x
                           = Some (mkTree (top_part c (x :: K) t) s1)).
    { specialize (Hins s Hs Hso Hd HK). unfold insert. simpl root. simpl size.
      destruct (top_part c K t).
      - simpl in Hins. unfold bind, add_size, ret in Hins.
        injection Hins as <-. eauto.
      - rewrite Hins. eauto. }
    destruct E as (s1 & E).
    cbn [map run step]. rewrite E. cbn [obind].
    destruct (IH (x :: K) s1 Hnd') as (s' & E').
    + intros y Hy. destruct (Hks y (or_intror Hy)) as [Hyd HyK].
      split; [exact Hyd|]. simpl. intros [<-|Hy']; [contradiction|contradiction].
    + exists s'. rewrite E'. simpl rev. now rewrite <- app_assoc.
Qed.

Lemma build_levels (t : tree) :
  shape t -> sorted (keys t) ->
  forall c, exists s,
    build (by_levels c [t]) = Some (mkTree (top_part c [] t) s).
Proof.
  intros Hs Hso. induction c as [|c (s & IH)].
  - exists 0. unfold build. simpl. destruct t; reflexivity.
  - rewrite by_levels_snoc. unfold build in *. rewrite map_app, run_app, IH.
    cbn [obind].
    destruct (insert_level c t Hs Hso (nth_level c [t]) [] s) as (s' & E).
    + now apply nth_level_NoDup.
    + intros x Hx. split; [now apply nth_level_at_depth|auto].
    + exists s'. rewrite E. do 2 f_equal. rewrite app_nil_r.
      apply top_part_full. intros x Hx. apply in_rev. rewrite rev_involutive.
      now apply nth_level_at_depth.
Qed.

(** X17. The level-order traversal is a faithful record of a tree obtained
    by [insert] and [delete] calls: inserting its keys, in that order, into
    an empty tree rebuilds the same nodes with the same cached heights
    (and sets [size] to the number of keys). *)
Theorem rebuild_from_level_order (t : AVLTree) (fuel : nat) :
  reachable t -> (Z.to_nat (count (root t)) <= fuel)%nat ->
  exists l,
    level_order_traversal fuel t = Some l
    /\ build l = Some (mkTree (root t) (count (root t))).
Proof.
  intros Hr Hf. apply reachable_avl in Hr. destruct Hr as [Hs Hso].
  exists (by_levels (Z.to_nat (levels (root t))) [root t]). split.
  - unfold level_order_traversal.
    destruct (root t) as [|d l r p h]; [reflexivity|].
    apply (level_order_loop_levels _ [Node d l r p h] []);
      [repeat constructor; discriminate|simpl; lia|].
    cbn [forest_count]. lia.
  - destruct (build_levels (root t) Hs Hso (Z.to_nat (levels (root t)))) as (s & E).
    rewrite top_part_all in E; [|exact Hs|].
    + rewrite E. do 2 f_equal.
      apply (build_size_eq _ empty _ avl_empty eq_refl) in E. exact E.
    + rewrite (shape_levels _ Hs). pose proof (levels_nonneg (root t)). lia.
Qed.

Lemma rebuild_from_level_order_witness :
  exists l,
    level_order_traversal 3
      (mkTree (Node 2 (Node 1 Nil Nil Nil 1) (Node 3 Nil Nil Nil 1) Nil 2) 3)
    = Some l
    /\ build l = Some (mkTree (Node 2 (Node 1 Nil Nil Nil 1) (Node 3 Nil Nil Nil 1) Nil 2)
                              (count (Node 2 (Node 1 Nil Nil Nil 1) (Node 3 Nil Nil Nil 1) Nil 2))).
Proof.
  apply (rebuild_from_level_order
    (mkTree (Node 2 (Node 1 Nil Nil Nil 1) (Node 3 Nil Nil Nil 1) Nil 2) 3) 3).
  - exists [Insert 1; Insert 2; Insert 3]. reflexivity.
  - simpl. lia.
Defined.

(** ** More on [insert], [delete] and [get_height] *)

Lemma sorted_ext (l1 : list Z) :
  forall l2, sorted l1 -> sorted l2 -> (forall y, In y l1 <-> In y l2) -> l1 = l2.
Proof.
  induction l1 as [|a l1 IH]; intros [|b l2] H1 H2 Hin.
  - reflexivity.
  - exfalso. apply (proj2 (Hin b)). now left.
  - exfalso. apply (proj1 (Hin a)). now left.
  - apply sorted_cons_inv in H1, H2.
    destruct H1 as [H1 Ha], H2 as [H2 Hb].
    assert (a = b).
    { destruct (proj1 (Hin a) (or_introl eq_refl)) as [E|Hab]; [auto|].
      destruct (proj2 (Hin b) (or_introl eq_refl)) as [E|Hba]; [auto|].
      pose proof (Forall_lt_in _ _ _ Hb Hab). pose proof (Forall_lt_in _ _ _ Ha Hba).
      simpl in *. lia. }
    subst b. f_equal. apply IH; try assumption.
    intros y. split; intros Hy.
    + destruct (proj1 (Hin y) (or_intror Hy)) as [E|Hy']; [|exact Hy'].
      pose proof (Forall_lt_in _ _ _ Ha Hy). simpl in *. lia.
    + destruct (proj2 (Hin y) (or_intror Hy)) as [E|Hy']; [|exact Hy'].
      pose proof (Forall_lt_in _ _ _ Hb Hy). simpl in *. lia.
Qed.

(** [_delete_avl] lowers [size] once at the node that holds the key, and
    once more when that node has two children, in the call that removes
    its in-order successor. *)
Lemma delete_avl_size_exact (t : tree) (x s : Z) r :
  sorted (keys t) -> In x (keys t) ->
  _delete_avl t x s = Some r ->
  snd r = if has_two_children (_search_recursive t x) then s - 2 else s - 1.
Proof.
  revert s r. induction t as [|d l IHl r0 IHr p _ h]; intros s r Hs Hin E.
  - contradiction.
  - rewrite keys_node in Hs, Hin. apply sorted_app_cons in Hs.
    destruct Hs as (Hsl & Hsr & Hfl & Hfr).
    apply in_app_iff in Hin. simpl in Hin.
    cbn [_delete_avl _search_recursive] in *.
    unfold bind, lift, ret, add_size in E. rewrite Z.gtb_ltb in E.
    destruct (Z.eqb_spec d x) as [->|Hne].
    + rewrite Z.ltb_irrefl in E.
      destruct l as [|ld ll lr lp lh].
      * injection E as <-. simpl. destruct r0; lia.
      * destruct r0 as [|rd rl rr rp rh].
        { injection E as <-. simpl. lia. }
        cbn [has_two_children].
        destruct (find_min_node_spec (Node rd rl rr rp rh) ltac:(discriminate))
          as (sd & mr & mp & mh & rest & Emin & Ek).
        set (rt := Node rd rl rr rp rh) in *.
        rewrite Emin in E. simpl data_of in E. cbv iota beta in E.
        destruct (_delete_avl rt sd (s + -1)) as [[r' s1]|] eqn:Er; [|discriminate].
        pose proof (delete_min_size rt sd (s + -1) rest (r', s1) Ek Hsr Er) as Hm.
        simpl in Hm. subst s1.
        destruct (_delete_avl_rebalance (Node sd (Node ld ll lr lp lh) r' p h));
          [|discriminate].
        injection E as <-. simpl. lia.
    + destruct (Z.ltb_spec x d) as [Hlt|Hge].
      * assert (Hx : In x (keys l)).
        { destruct Hin as [Hx|[Hx|Hx]]; [exact Hx|congruence|].
          pose proof (Forall_lt_in _ _ _ Hfr Hx). simpl in *. lia. }
        destruct (_delete_avl l x s) as [[l' s1]|] eqn:El; [|discriminate].
        specialize (IHl s (l', s1) Hsl Hx El). simpl in IHl.
        destruct (_delete_avl_rebalance (Node d l' r0 p h)); [|discriminate].
        injection E as <-. exact IHl.
      * assert (Hx : In x (keys r0)).
        { destruct Hin as [Hx|[Hx|Hx]]; [|congruence|exact Hx].
          pose proof (Forall_lt_in _ _ _ Hfl Hx). simpl in *. lia. }
        destruct (Z.ltb_spec d x) as [_|Hle]; [|lia].
        destruct (_delete_avl r0 x s) as [[r' s1]|] eqn:Er; [|discriminate].
        specialize (IHr s (r', s1) Hsr Hx Er). simpl in IHr.
        destruct (_delete_avl_rebalance (Node d l r' p h)); [|discriminate].
        injection E as <-. exact IHr.
Qed.

(** X18. On a non-empty tree obtained by [insert] and [delete] calls,
    inserting a key that is not stored and deleting it again returns
    [True] and gives back the in-order traversal of the tree.  [size]
    comes back to its value when the node that holds the key after the
    insertion has at most one child, and to one less when that node has
    two children. *)
Theorem insert_delete_round_trip (t : AVLTree) (k : Z) :
  reachable t -> search t k = false -> root t <> Nil ->
  exists t1 t2,
    insert t k = Some t1 /\ delete t1 k = Some (true, t2)
    /\ inorder_traversal t2 = inorder_traversal t
    /\ size t2 = if has_two_children (_search_recursive (root t1) k)
                 then size t - 1 else size t.
Proof.
  intros Hr Hk Hroot. apply reachable_avl in Hr.
  apply (search_false_not_in t k Hr) in Hk.
  destruct (insert_measure t k Hr) as (t1 & E1 & Ha1 & _ & Hnew & _).
  destruct (Hnew Hk) as [_ Hsz].
  destruct (insert_spec t k Hr) as (t1' & E1' & _ & Hin1 & _).
  rewrite E1 in E1'. injection E1' as <-.
  assert (Hk1 : In k (inorder_traversal t1)) by (apply Hin1; now left).
  destruct (delete_spec t1 k Ha1) as (b & t2 & E2 & Ha2 & Hin2 & Hb & _ & _).
  exists t1, t2. split; [exact E1|]. split.
  - rewrite E2. destruct b; [reflexivity|].
    assert (false = true) by (now apply Hb). discriminate.
  - split.
    + apply sorted_ext; [apply Ha2|apply Hr|].
      intros y. rewrite Hin2, Hin1. split; [intros [[H|H] Hne]; tauto|].
      intros Hy. split; [now right|]. intros ->. contradiction.
    + unfold delete in E2. destruct Ha1 as [_ Hs1].
      unfold inorder_traversal in Hk1. fold (keys (root t1)) in Hk1.
      destruct (root t1) as [|d1 l1 r1 p1 h1]; [contradiction|].
      destruct (_delete_avl (Node d1 l1 r1 p1 h1) k (size t1)) as [[r s]|] eqn:Ed;
        [|discriminate].
      injection E2 as _ <-. cbn [size].
      pose proof (delete_avl_size_exact _ _ _ _ Hs1 Hk1 Ed) as Hx.
      cbn [snd] in Hx. rewrite Hx.
      destruct (root t); [now elim Hroot|].
      destruct (has_two_children _); lia.
Qed.

Lemma insert_delete_round_trip_witness :
  exists t1 t2,
    insert (mkTree (Node 1 Nil (Node 3 Nil Nil Nil 1) Nil 2) 2) 2 = Some t1
    /\ delete t1 2 = Some (true, t2)
    /\ inorder_traversal t2
       = inorder_traversal (mkTree (Node 1 Nil (Node 3 Nil Nil Nil 1) Nil 2) 2)
    /\ size t2 = if has_two_children (_search_recursive (root t1) 2)
                 then size (mkTree (Node 1 Nil (Node 3 Nil Nil Nil 1) Nil 2) 2) - 1
                 else size (mkTree (Node 1 Nil (Node 3 Nil Nil Nil 1) Nil 2) 2).
Proof.
  apply insert_delete_round_trip.
  - exists [Insert 1; Insert 3]. reflexivity.
  - reflexivity.
  - discriminate.
Defined.

Lemma no_half_count_odd (t : tree) :
  has_half t = false -> t <> Nil -> Z.odd (count t) = true.
Proof.
  induction t as [|d l IHl r IHr p _ h]; intros Hh Hn; [now elim Hn|].
  destruct l as [|ld ll lr lp lh], r as [|rd rl rr rp rh]; try discriminate.
  - reflexivity.
  - change (has_half (Node ld ll lr lp lh) || has_half (Node rd rl rr rp rh) = false) in Hh.
    apply orb_false_iff in Hh. destruct Hh as [Hl Hr].
    specialize (IHl Hl ltac:(discriminate)). specialize (IHr Hr ltac:(discriminate)).
    change (count (Node d (Node ld ll lr lp lh) (Node rd rl rr rp rh) p h))
      with (count (Node ld ll lr lp lh) + count (Node rd rl rr rp rh) + 1).
    revert IHl IHr.
    generalize (count (Node ld ll lr lp lh)) (count (Node rd rl rr rp rh)).
    intros a b Ha Hb. rewrite Z.odd_add, Z.odd_add, Ha, Hb. reflexivity.
Qed.

(** X19. On a tree that stores an even, non-zero number of keys some node
    has exactly one child, so [get_height()] never returns on it, whatever
    the recursion depth. *)
Theorem get_height_even_count (self : AVLTree) :
  inorder_traversal self <> [] ->
  Nat.even (length (inorder_traversal self)) = true ->
  forall fuel, get_height fuel self = None.
Proof.
  unfold inorder_traversal. fold (keys (root self)). intros Hne Hev.
  apply get_height_spec.
  destruct (has_half (root self)) eqn:Hh; [reflexivity|].
  assert (Hn : root self <> Nil) by (intros E; rewrite E in Hne; now elim Hne).
  pose proof (no_half_count_odd _ Hh Hn) as Hodd.
  rewrite count_keys in Hodd.
  rewrite <- Z.negb_even in Hodd.
  assert (He : Z.even (Z.of_nat (length (keys (root self)))) = true).
  { clear - Hev. revert Hev. generalize (length (keys (root self))). intros n Hn.
    apply Nat.even_spec in Hn. destruct Hn as [m ->].
    rewrite Nat2Z.inj_mul. apply Z.even_spec. exists (Z.of_nat m). reflexivity. }
  rewrite He in Hodd. discriminate.
Qed.

Lemma get_height_even_count_witness :
  Nat.even (length (inorder_traversal
    (mkTree (Node 1 Nil (Node 2 Nil Nil Nil 1) Nil 2) 2))) = true
  /\ forall fuel,
       get_height fuel (mkTree (Node 1 Nil (Node 2 Nil Nil Nil 1) Nil 2) 2) = None.
Proof.
  split; [reflexivity|].
  apply get_height_even_count.
  - discriminate.
  - reflexivity.
Defined.
